(** * createAsyncMiddleware: the async-to-callback middleware adapter

    A shallow embedding of
    [merged-packages/json-rpc-engine/src/createAsyncMiddleware.ts].

    The produced middleware is an [async] function: it runs in segments
    separated by its [await]s (lines 73, 77 and 80).  The embedding makes
    each segment a total function on an explicit state (the three closure
    variables of the call, the shared request and response, and the trace of
    the calls that cross the adapter's boundary), and makes the event loop a
    [turn] function: the engine first calls the return handlers that are due,
    then the suspended code resumes and runs up to its next [await].  An
    [await] always gives the turn away, also on a promise that is settled
    already; so the [catch] block of line 85 runs one turn after the async
    middleware threw.

    The wrapped async middleware and the engine are the environment.  The
    former is a tree of the actions an async function body can take towards
    the wrapper; the latter is a record that says when (and whether) the
    engine calls each return handler handed to [next], and whether [end] and
    the supplied callbacks return or throw.  The engine's [next] itself
    returns normally, and the engine touches the call through the return
    handlers only. *)

From Stdlib Require Import List Bool Arith ZArith String Lia.
Import ListNotations.

Set Implicit Arguments.

(** ** Values *)

(** What JavaScript code may throw, and what is passed as the [error]
    argument of a completion callback ([error: any] on line 85). *)
Inductive value : Type :=
| VUndefined
| VNull
| VBool (b : bool)
| VNum (n : Z)
| VStr (s : string)
| VError (message : string).

(** JavaScript truthiness of a value. *)
Definition truthy (v : value) : bool :=
match v with
| VUndefined | VNull => false
| VBool b => b
| VNum n => negb (Z.eqb n 0)
| VStr s => negb (String.eqb s EmptyString)
| VError _ => true
end.

(** The functions the engine passes to a return handler
    ([runReturnHandlersCallback], of type [ReturnHandlerCallback]), told apart
    by a number.  A function is always truthy: the test on line 86 is a test
    for [Some]. *)
Definition callback : Type := nat.

(** The value thrown when line 81 calls something that is not a function. *)
Definition not_a_function : value :=
VError "returnHandlerCallback is not a function".

(** How the promise returned by the produced middleware settles. *)
Inductive outcome : Type :=
| Resolved
| Rejected (reason : value).

Section Adapter.

(** [JsonRpcRequest<Params>] and [PendingJsonRpcResponse<Result>]: their
    declarations are imported from [@metamask/utils]; the adapter is
    generic in both. *)
Variables Req Res : Type.

(** ** The wrapped async middleware *)

(** The body of an [AsyncJsonrpcMiddleware], as the wrapper sees it. *)
Inductive AsyncJsonrpcMiddleware : Type :=
| Resolve
    (* the body returns: its promise resolves *)
| Throw (error : value)
    (* the body throws: its promise rejects *)
| SetRes (f : Res -> Res) (k : AsyncJsonrpcMiddleware)
    (* the body mutates the shared response *)
| SetReq (g : Req -> Req) (k : AsyncJsonrpcMiddleware)
    (* the body mutates the shared request *)
| Inspect (k : Req -> Res -> AsyncJsonrpcMiddleware)
    (* the body reads the request and the response *)
| CallNext (k : AsyncJsonrpcMiddleware)
    (* the body calls [next()] (the wrapper's [asyncNext]) and keeps the
       promise without awaiting it here *)
| AwaitNext (k : AsyncJsonrpcMiddleware)
    (* the body awaits a promise returned by [next()] *)
| AwaitTick (k : AsyncJsonrpcMiddleware)
    (* the body awaits something else that settles *)
| Stall.
    (* the body awaits something that never settles *)

(** ** Trace of the calls that cross the adapter's boundary *)

Inductive event : Type :=
| NextCalled
    (* line 68: the wrapper called [next] *)
| Registered (cb : callback)
    (* lines 70-71: the engine called the return handler with [cb] *)
| EndCalled (error : value) (seen : Res)
    (* lines 83, 89: [end(error)], with the response as it is then *)
| CallbackCalled (cb : callback) (error : value) (seen : Res).
    (* lines 81, 87: [returnHandlerCallback(error)] *)

(** ** The engine *)

(** A return handler the engine holds and has not called yet: the number
    of turns left before it calls it, the callback it will pass, and what
    the downstream stages will have done to the response by then. *)
Definition pending : Type := (nat * callback * (Res -> Res))%type.

Record engine : Type := mkEngine {
  (* For the i-th call of [next]: [None] if the engine never calls the
     return handler; [Some (d, cb, g)] if it calls it [d] turns later
     ([0]: synchronously, inside [next]). *)
  supply : nat -> option pending;
  (* [end(error)] after the given trace: [None] if it returns, [Some e] if
     it throws [e]. *)
  end_throws : list event -> value -> option value;
  (* the same for a supplied callback *)
  callback_throws : list event -> callback -> value -> option value
}.

(** ** State of one call *)

Record state : Type := mkState {
  req : Req;
  res : Res;
  (* line 54: has [resolveNextPromise] been called? *)
  nextPromise : bool;
  (* line 58: [null] is [None] *)
  returnHandlerCallback : option callback;
  (* line 59 *)
  nextWasCalled : bool;
  (* engine side: return handlers received and not called yet *)
  returnHandlers : list pending;
  (* engine side: how many times [next] was called *)
  nextCalls : nat;
  trace : list event
}.

(** Where the produced middleware stands between two turns. *)
Inductive wait : Type :=
| OnTick      (* on something that settles *)
| OnNext      (* on a promise returned by [asyncNext], i.e. line 73 *)
| Forever.    (* on something that never settles *)

Inductive control : Type :=
| Suspended (w : wait) (k : AsyncJsonrpcMiddleware)
    (* line 77, the async middleware is suspended at an [await] *)
| HandlerSettled (thrown : option value)
    (* line 77, the async middleware's promise has settled and the
       wrapper's [await] has not resumed yet *)
| AwaitNextPromise
    (* line 80 *)
| Finished (o : outcome).

Definition config : Type := (control * state)%type.

(** *** State updates *)

Definition write_res (f : Res -> Res) (s : state) : state :=
  mkState (req s) (f (res s)) (nextPromise s) (returnHandlerCallback s)
          (nextWasCalled s) (returnHandlers s) (nextCalls s) (trace s).

Definition write_req (g : Req -> Req) (s : state) : state :=
  mkState (g (req s)) (res s) (nextPromise s) (returnHandlerCallback s)
          (nextWasCalled s) (returnHandlers s) (nextCalls s) (trace s).

Definition record (e : event) (s : state) : state :=
  mkState (req s) (res s) (nextPromise s) (returnHandlerCallback s)
          (nextWasCalled s) (returnHandlers s) (nextCalls s)
          (trace s ++ [e]).

Definition set_returnHandlers (l : list pending) (s : state) : state :=
  mkState (req s) (res s) (nextPromise s) (returnHandlerCallback s)
          (nextWasCalled s) l (nextCalls s) (trace s).

(** Line 63. *)
Definition set_nextWasCalled (s : state) : state :=
  mkState (req s) (res s) (nextPromise s) (returnHandlerCallback s)
          true (returnHandlers s) (nextCalls s) (trace s).

Definition count_next (s : state) : state :=
  mkState (req s) (res s) (nextPromise s) (returnHandlerCallback s)
          (nextWasCalled s) (returnHandlers s) (S (nextCalls s)) (trace s).

(** Lines 68-72, the return handler passed to [next]: it stores what the
    engine passes and resolves [nextPromise]. *)
Definition returnHandler (runReturnHandlersCallback : callback) (s : state)
  : state :=
  mkState (req s) (res s) true (Some runReturnHandlersCallback)
          (nextWasCalled s) (returnHandlers s) (nextCalls s) (trace s).

(** ** The engine's side *)

(** The engine calls a return handler: the downstream stages have run. *)
Definition engine_invoke (cb : callback) (g : Res -> Res) (s : state)
  : state :=
  returnHandler cb (record (Registered cb) (write_res g s)).

Variable E : engine.

(** The engine's [next]. *)
Definition next (s : state) : state :=
  let s1 := count_next (record NextCalled s) in
  match supply E (nextCalls s) with
  | None => s1
  | Some (0, cb, g) => engine_invoke cb g s1
  | Some (S d, cb, g) =>
      set_returnHandlers (returnHandlers s1 ++ [(d, cb, g)]) s1
  end.

(** One turn of the engine over the return handlers it holds: those that
    are due are called, in order; the others come one turn closer. *)
Fixpoint call_due (l : list pending) (s : state) : state * list pending :=
  match l with
  | [] => (s, [])
  | (0, cb, g) :: l' => call_due l' (engine_invoke cb g s)
  | (S d, cb, g) :: l' =>
      let (s', kept) := call_due l' s in (s', (d, cb, g) :: kept)
  end.

Definition engine_turn (s : state) : state :=
  let (s', kept) := call_due (returnHandlers s) s in
  set_returnHandlers kept s'.

(** ** The wrapper *)

(** Lines 62-72: [asyncNext] up to its [await nextPromise]. *)
Definition asyncNext (s : state) : state :=
  next (set_nextWasCalled s).

(** The async middleware runs up to its next [await], or to the end. *)
Fixpoint sync (h : AsyncJsonrpcMiddleware) (s : state) : config :=
  match h with
  | Resolve => (HandlerSettled None, s)
  | Throw e => (HandlerSettled (Some e), s)
  | SetRes f k => sync k (write_res f s)
  | SetReq g k => sync k (write_req g s)
  | Inspect k => sync (k (req s) (res s)) s
  | CallNext k => sync k (asyncNext s)
  | AwaitNext k => (Suspended OnNext k, s)
  | AwaitTick k => (Suspended OnTick k, s)
  | Stall => (Suspended Forever Resolve, s)
  end.

(** A completion call settles the wrapper's promise, unless it throws. *)
Definition call_end (error : value) (s : state) : state * option value :=
  (record (EndCalled error (res s)) s, end_throws E (trace s) error).

Definition call_callback (cb : callback) (error : value) (s : state)
  : state * option value :=
  (record (CallbackCalled cb error (res s)) s,
   callback_throws E (trace s) cb error).

Definition settle (r : state * option value) : config :=
  match snd r with
  | None => (Finished Resolved, fst r)
  | Some e => (Finished (Rejected e), fst r)
  end.

(** Lines 85-91. *)
Definition catch_branch (error : value) (s : state) : config :=
  match returnHandlerCallback s with
  | Some cb => settle (call_callback cb error s)
  | None => settle (call_end error s)
  end.

(** A call inside the [try] block: a throw goes to the [catch]. *)
Definition in_try (r : state * option value) : config :=
  match snd r with
  | None => (Finished Resolved, fst r)
  | Some e => catch_branch e (fst r)
  end.

(** Line 81. *)
Definition after_nextPromise (s : state) : config :=
  match returnHandlerCallback s with
  | Some cb => in_try (call_callback cb VNull s)
  | None => catch_branch not_a_function s
  end.

(** Lines 79-84, when the [await] of line 77 resumes normally. *)
Definition after_handler (s : state) : config :=
  if nextWasCalled s then (AwaitNextPromise, s)
  else in_try (call_end VNull s).

(** The suspended code resumes, if what it waits for is there. *)
Definition resume (c : config) : config :=
  let (ctl, s) := c in
  match ctl with
  | Suspended OnTick k => sync k s
  | Suspended OnNext k => if nextPromise s then sync k s else c
  | Suspended Forever _ => c
  | HandlerSettled None => after_handler s
  | HandlerSettled (Some e) => catch_branch e s
  | AwaitNextPromise => if nextPromise s then after_nextPromise s else c
  | Finished _ => c
  end.

(** One turn of the event loop. *)
Definition turn (c : config) : config :=
  resume (fst c, engine_turn (snd c)).

Fixpoint turns (n : nat) (c : config) : config :=
  match n with
  | 0 => c
  | S n' => turns n' (turn c)
  end.

(** Lines 53-59. *)
Definition initial (rq : Req) (rs : Res) : state :=
  mkState rq rs false None false [] 0 [].

(** The produced middleware, called with [(rq, rs, next, end)]: what has
    happened when the call returns its promise. *)
Definition createAsyncMiddleware (asyncMiddleware : AsyncJsonrpcMiddleware)
    (rq : Req) (rs : Res) : config :=
  sync asyncMiddleware (initial rq rs).

(** The call, [n] turns later. *)
Definition run (asyncMiddleware : AsyncJsonrpcMiddleware)
    (rq : Req) (rs : Res) (n : nat) : config :=
  turns n (createAsyncMiddleware asyncMiddleware rq rs).

(** ** Reading the trace *)

(** The two completion channels: [end] and the captured callback. *)
Definition is_completion (e : event) : bool :=
  match e with
  | EndCalled _ _ | CallbackCalled _ _ _ => true
  | NextCalled | Registered _ => false
  end.

Definition completions (l : list event) : list event :=
  filter is_completion l.

Definition is_next (e : event) : bool :=
  match e with
  | NextCalled => true
  | _ => false
  end.

(** How many times the wrapper called the engine's [next]. *)
Definition next_count (l : list event) : nat :=
  List.length (filter is_next l).

(** Every call of a supplied callback comes after the engine supplied it. *)
Definition registered_first (l : list event) : Prop :=
  forall before cb error seen after,
    l = before ++ CallbackCalled cb error seen :: after ->
    In (Registered cb) before.

(** ** Assumptions on the environment *)

(** The engine's [end] returns normally. *)
Definition end_returns : Prop :=
  forall l v, end_throws E l v = None.

(** The callbacks the engine supplies return normally. *)
Definition callbacks_return : Prop :=
  forall l cb v, callback_throws E l cb v = None.

(** The contract of [next]: every return handler is eventually called. *)
Definition supplies : Prop :=
  forall i, supply E i <> None.

(** The async middleware settles: it awaits nothing that never settles, and
    awaits a promise of [next()] only once it has called [next()].  The
    boolean says whether [next()] was called before. *)
Inductive settles : bool -> AsyncJsonrpcMiddleware -> Prop :=
| settles_Resolve b : settles b Resolve
| settles_Throw b e : settles b (Throw e)
| settles_SetRes b f k : settles b k -> settles b (SetRes f k)
| settles_SetReq b g k : settles b k -> settles b (SetReq g k)
| settles_Inspect b k :
    (forall rq rs, settles b (k rq rs)) -> settles b (Inspect k)
| settles_CallNext b k : settles true k -> settles b (CallNext k)
| settles_AwaitNext k : settles true k -> settles true (AwaitNext k)
| settles_AwaitTick b k : settles b k -> settles b (AwaitTick k).

(** The async middleware calls [next()] exactly [n] times on every path on
    which it settles. *)
Inductive calls_next : AsyncJsonrpcMiddleware -> nat -> Prop :=
| calls_Resolve : calls_next Resolve 0
| calls_Throw e : calls_next (Throw e) 0
| calls_SetRes f k n : calls_next k n -> calls_next (SetRes f k) n
| calls_SetReq g k n : calls_next k n -> calls_next (SetReq g k) n
| calls_Inspect k n :
    (forall rq rs, calls_next (k rq rs) n) -> calls_next (Inspect k) n
| calls_CallNext k n : calls_next k n -> calls_next (CallNext k) (S n)
| calls_AwaitNext k n : calls_next k n -> calls_next (AwaitNext k) n
| calls_AwaitTick k n : calls_next k n -> calls_next (AwaitTick k) n
| calls_Stall n : calls_next Stall n.

(** What is left of the async middleware's calls of [next()]. *)
Definition calls_left (c : control) (n : nat) : Prop :=
  match c with
  | Suspended Forever _ => True
  | Suspended _ k => calls_next k n
  | _ => n = 0
  end.

(** The async middleware run on its own, as far as it goes without touching
    [next]: how it settles and what it leaves in the request and the
    response, with the number of [await]s on the way. *)
Fixpoint locally (h : AsyncJsonrpcMiddleware) (rq : Req) (rs : Res)
  : option (option value * Req * Res * nat) :=
  match h with
  | Resolve => Some (None, rq, rs, 0)
  | Throw e => Some (Some e, rq, rs, 0)
  | SetRes f k => locally k rq (f rs)
  | SetReq g k => locally k (g rq) rs
  | Inspect k => locally (k rq rs) rq rs
  | AwaitTick k =>
      match locally k rq rs with
      | Some (r, rq', rs', n) => Some (r, rq', rs', S n)
      | None => None
      end
  | CallNext _ | AwaitNext _ | Stall => None
  end.

(** Every write of the async middleware to the request keeps [Q]. *)
Inductive req_writes_keep (Q : Req -> Prop) : AsyncJsonrpcMiddleware -> Prop :=
| keep_Resolve : req_writes_keep Q Resolve
| keep_Throw e : req_writes_keep Q (Throw e)
| keep_SetRes f k : req_writes_keep Q k -> req_writes_keep Q (SetRes f k)
| keep_SetReq g k :
    (forall rq, Q rq -> Q (g rq)) -> req_writes_keep Q k ->
    req_writes_keep Q (SetReq g k)
| keep_Inspect k :
    (forall rq rs, Q rq -> req_writes_keep Q (k rq rs)) ->
    req_writes_keep Q (Inspect k)
| keep_CallNext k : req_writes_keep Q k -> req_writes_keep Q (CallNext k)
| keep_AwaitNext k : req_writes_keep Q k -> req_writes_keep Q (AwaitNext k)
| keep_AwaitTick k : req_writes_keep Q k -> req_writes_keep Q (AwaitTick k)
| keep_Stall : req_writes_keep Q Stall.

(** The async middleware does not look at the request. *)
Inductive req_blind : AsyncJsonrpcMiddleware -> Prop :=
| blind_Resolve : req_blind Resolve
| blind_Throw e : req_blind (Throw e)
| blind_SetRes f k : req_blind k -> req_blind (SetRes f k)
| blind_SetReq g k : req_blind k -> req_blind (SetReq g k)
| blind_Inspect k :
    (forall rq rq' rs, k rq rs = k rq' rs) ->
    (forall rq rs, req_blind (k rq rs)) ->
    req_blind (Inspect k)
| blind_CallNext k : req_blind k -> req_blind (CallNext k)
| blind_AwaitNext k : req_blind k -> req_blind (AwaitNext k)
| blind_AwaitTick k : req_blind k -> req_blind (AwaitTick k)
| blind_Stall : req_blind Stall.

(** Everything of a configuration but the request. *)
Definition but_req (c : config)
  : control * (Res * bool * option callback * bool * list pending * nat
               * list event) :=
  (fst c,
   (res (snd c), nextPromise (snd c), returnHandlerCallback (snd c),
    nextWasCalled (snd c), returnHandlers (snd c), nextCalls (snd c),
    trace (snd c))).

(** ** Invariants of a call *)

(** What holds of the closure variables and of the trace at every turn. *)
Definition sound (s : state) : Prop :=
  (nextPromise s = true <-> returnHandlerCallback s <> None) /\
  (forall cb, returnHandlerCallback s = Some cb ->
              In (Registered cb) (trace s)) /\
  registered_first (trace s) /\
  next_count (trace s) = nextCalls s /\
  nextWasCalled s = negb (nextCalls s =? 0).

(** As long as [next] was not called, the engine holds no return handler and
    has supplied nothing. *)
Definition untouched (s : state) : Prop :=
  nextCalls s = 0 ->
  returnHandlers s = [] /\
  returnHandlerCallback s = None /\ nextPromise s = false.

(** A trace that continues another. *)
Definition extends (l l' : list event) : Prop :=
  exists more, l' = l ++ more.

(** When [next] was called, its signal is resolved or the engine still
    holds a return handler. *)
Definition served (s : state) : Prop :=
  nextWasCalled s = true ->
  nextPromise s = true \/ returnHandlers s <> [].

(** The async middleware has control or has just settled. *)
Definition in_handler (c : control) : Prop :=
  match c with
  | Suspended _ _ | HandlerSettled _ => True
  | AwaitNextPromise | Finished _ => False
  end.

(** No completion call before the end, one at the end. *)
Definition completed_once (c : config) : Prop :=
  match fst c with
  | Finished o => o = Resolved /\ exists e, completions (trace (snd c)) = [e]
  | _ => completions (trace (snd c)) = []
  end.

(** No completion call before the end, whatever the channels do. *)
Definition silent_until_finished (c : config) : Prop :=
  match fst c with
  | Finished _ => True
  | _ => completions (trace (snd c)) = []
  end.

(** The completion call of the [catch] branch, lines 86-90. *)
Definition routed (error : value) (s : state) : event :=
  match returnHandlerCallback s with
  | Some cb => CallbackCalled cb error (res s)
  | None => EndCalled error (res s)
  end.

(** Turns in which only the engine moves. *)
Fixpoint engine_turns (n : nat) (s : state) : state :=
  match n with
  | 0 => s
  | S n' => engine_turns n' (engine_turn s)
  end.

(** The signal is resolved, or will be within [d] turns of the engine. *)
Definition due_within (d : nat) (s : state) : Prop :=
  nextPromise s = true \/
  exists d' cb g, d' <= d /\ In (d', cb, g) (returnHandlers s).

(** The calls of [next] made and those the async middleware has left add up
    to [total]. *)
Definition calls_balance (total : nat) (c : config) : Prop :=
  exists left,
    calls_left (fst c) left /\ next_count (trace (snd c)) + left = total.

(** The request satisfies [Q], and so will it after what is left of the
    async middleware. *)
Definition req_kept (Q : Req -> Prop) (c : config) : Prop :=
  Q (req (snd c)) /\
  match fst c with
  | Suspended _ k => req_writes_keep Q k
  | _ => True
  end.

(** The same state with another request. *)
Definition set_req (r : Req) (s : state) : state :=
  write_req (fun _ => r) s.

(** Two configurations that differ in the request only, at a point from
    which the async middleware does not look at it. *)
Definition req_hidden (c1 c2 : config) : Prop :=
  fst c1 = fst c2 /\
  (exists r, snd c1 = set_req r (snd c2)) /\
  match fst c2 with
  | Suspended _ k => req_blind k
  | _ => True
  end.

(** The routing rule of the [catch] branch, read at the time of the throw:
    whenever the async middleware has thrown [e], the one completion call
    goes to the callback if one was captured when it threw, to [end]
    otherwise, and carries [e]. *)
Definition routed_as_at_throw (h : AsyncJsonrpcMiddleware) (rq : Req)
    (rs : Res) : Prop :=
  forall n e s,
    run h rq rs n = (HandlerSettled (Some e), s) ->
    match returnHandlerCallback s with
    | Some _ =>
        exists cb seen,
          completions (trace (snd (run h rq rs (S n))))
          = [CallbackCalled cb e seen]
    | None =>
        exists seen,
          completions (trace (snd (run h rq rs (S n)))) = [EndCalled e seen]
    end.

(** The same rule for the falsy values: thrown when a callback was captured
    they go to the callback, thrown before any was captured they go to
    [end]. *)
Definition falsy_routed_as_at_throw (h : AsyncJsonrpcMiddleware) (rq : Req)
    (rs : Res) : Prop :=
  forall n v s,
    truthy v = false ->
    run h rq rs n = (HandlerSettled (Some v), s) ->
    match returnHandlerCallback s with
    | Some _ =>
        exists cb seen,
          completions (trace (snd (run h rq rs (S n))))
          = [CallbackCalled cb v seen]
    | None =>
        exists seen,
          completions (trace (snd (run h rq rs (S n)))) = [EndCalled v seen]
    end.

End Adapter.


Arguments Resolve {Req Res}.
Arguments Throw {Req Res} error.
Arguments Stall {Req Res}.
Arguments NextCalled {Res}.
Arguments Registered {Res} cb.
Arguments Suspended {Req Res} w k.
Arguments HandlerSettled {Req Res} thrown.
Arguments AwaitNextPromise {Req Res}.
Arguments Finished {Req Res} o.


(** ** Further readings of the trace and of the environment *)

Section AdapterEdges.

Variables Req Res : Type.
Variable E : engine Res.

(** The callback of the last [Registered] event of a trace: what line 70
    stored last. *)
Fixpoint last_registered (l : list (event Res)) : option callback :=
  match l with
  | [] => None
  | e :: l' =>
      match last_registered l' with
      | Some cb => Some cb
      | None =>
          match e with
          | Registered cb => Some cb
          | _ => None
          end
      end
  end.

(** Every call of a supplied callback is a call of the one the engine
    supplied last before it. *)
Definition called_latest (l : list (event Res)) : Prop :=
  forall before cb error seen after,
    l = before ++ CallbackCalled cb error seen :: after ->
    last_registered before = Some cb.

Definition latest (s : state Req Res) : Prop :=
  returnHandlerCallback s = last_registered (trace s) /\
  called_latest (trace s).

(** Whether the completion call of the [catch] branch (line 87 or 89)
    returns or throws. *)
Definition routed_throws (error : value) (s : state Req Res) : option value :=
  match returnHandlerCallback s with
  | Some cb => callback_throws E (trace s) cb error
  | None => end_throws E (trace s) error
  end.

(** An engine that never calls a return handler. *)
Definition never_supplies : Prop :=
  forall i, supply E i = None.

Definition is_end (e : event Res) : bool :=
  match e with
  | EndCalled _ _ => true
  | _ => false
  end.

(** No completion call before the end, one or two at the end. *)
Definition completed_once_or_twice (c : config Req Res) : Prop :=
  match fst c with
  | Finished _ =>
      1 <= List.length (completions (trace (snd c))) <= 2
  | _ => completions (trace (snd c)) = []
  end.

(** Every write of the async middleware to the response keeps [Q]. *)
Inductive res_writes_keep (Q : Res -> Prop)
  : AsyncJsonrpcMiddleware Req Res -> Prop :=
| rkeep_Resolve : res_writes_keep Q Resolve
| rkeep_Throw e : res_writes_keep Q (Throw e)
| rkeep_SetRes f k :
    (forall rs, Q rs -> Q (f rs)) -> res_writes_keep Q k ->
    res_writes_keep Q (SetRes f k)
| rkeep_SetReq g k : res_writes_keep Q k -> res_writes_keep Q (SetReq g k)
| rkeep_Inspect k :
    (forall rq rs, Q rs -> res_writes_keep Q (k rq rs)) ->
    res_writes_keep Q (Inspect k)
| rkeep_CallNext k : res_writes_keep Q k -> res_writes_keep Q (CallNext k)
| rkeep_AwaitNext k : res_writes_keep Q k -> res_writes_keep Q (AwaitNext k)
| rkeep_AwaitTick k : res_writes_keep Q k -> res_writes_keep Q (AwaitTick k)
| rkeep_Stall : res_writes_keep Q Stall.

(** What the downstream stages do to the response keeps [Q]. *)
Definition downstream_keeps (Q : Res -> Prop) : Prop :=
  forall i d cb g, supply E i = Some (d, cb, g) -> forall rs, Q rs -> Q (g rs).

(** The response a completion call was made with satisfies [Q]. *)
Definition seen_satisfies (Q : Res -> Prop) (e : event Res) : Prop :=
  match e with
  | EndCalled _ seen | CallbackCalled _ _ seen => Q seen
  | NextCalled | Registered _ => True
  end.

(** [Q] holds of the response, of the responses the completion calls were
    made with, and will hold after what the engine and the async middleware
    have left to do. *)
Definition res_kept (Q : Res -> Prop) (c : config Req Res) : Prop :=
  Q (res (snd c)) /\
  Forall (fun p : pending Res => forall rs, Q rs -> Q (snd p rs))
         (returnHandlers (snd c)) /\
  Forall (seen_satisfies Q) (trace (snd c)) /\
  match fst c with
  | Suspended _ k => res_writes_keep Q k
  | _ => True
  end.

(** C1 read without a proviso: at every turn of the call, no completion
    call before the end and exactly one at the end. *)
Definition completes_exactly_once (h : AsyncJsonrpcMiddleware Req Res)
    (rq : Req) (rs : Res) : Prop :=
  forall n,
    match fst (run E h rq rs n) with
    | Finished _ =>
        exists e, completions (trace (snd (run E h rq rs n))) = [e]
    | _ => completions (trace (snd (run E h rq rs n))) = []
    end.

(** C4 read without a proviso: when the async middleware resolves without
    calling [next()], the calls the wrapper has made are one call of [end],
    with [null]. *)
Definition finalizes_once (h : AsyncJsonrpcMiddleware Req Res)
    (rq : Req) (rs : Res) : Prop :=
  forall rq' rs' k,
    locally h rq rs = Some (None, rq', rs', k) ->
    forall n, k < n ->
      trace (snd (run E h rq rs n)) = [EndCalled VNull rs'].

(** C6 read for every call: the promise of the produced middleware
    resolves. *)
Definition always_resolves (h : AsyncJsonrpcMiddleware Req Res)
    (rq : Req) (rs : Res) : Prop :=
  exists N, forall n, N <= n -> fst (run E h rq rs n) = Finished Resolved.

End AdapterEdges.

(** ** Scenarios *)

Module Scenario.

(** The part of [JsonRpcRequest] the scenarios need. *)
Record request : Type := mkRequest {
  request_id : Z;
  request_method : string
}.

Definition a_request : request := mkRequest 1 "eth_call".

(** The part of [PendingJsonRpcResponse] the scenarios write. *)
Record response : Type := mkResponse {
  result : option Z;
  error : option value
}.

Definition empty_response : response := mkResponse None None.

(** [res.result = z] *)
Definition set_result (z : Z) (r : response) : response :=
  mkResponse (Some z) (error r).

(** An engine that calls every return handler [d] turns after it received
    it, with callback number [7 + i] for the i-th, and whose functions
    return normally. *)
Definition prompt (d : nat) : engine response :=
  mkEngine (fun i => Some (d, 7 + i, fun r => r))
           (fun _ _ => None) (fun _ _ _ => None).

(** An engine whose [end] throws what it is given, when that is an error. *)
Definition rethrowing : engine response :=
  mkEngine (fun i => Some (1, 7 + i, fun r => r))
           (fun _ v => match v with VNull => None | _ => Some v end)
           (fun _ _ _ => None).

(** [async (req, res, next) => { res.result = 1; }] *)
Definition sets_result : AsyncJsonrpcMiddleware request response :=
  SetRes (set_result 1) Resolve.

(** [async (req, res, next) => { await next(); res.result = 2; }] *)
Definition awaits_next : AsyncJsonrpcMiddleware request response :=
  CallNext (AwaitNext (SetRes (set_result 2) Resolve)).

(** [async () => { throw new Error('x'); }] *)
Definition throws_x : AsyncJsonrpcMiddleware request response :=
  Throw (VError "x").

(** [async (req, res, next) => { next(); }] *)
Definition forgets_next : AsyncJsonrpcMiddleware request response :=
  CallNext Resolve.

(** [async (req, res, next) => { next(); await other; throw new Error('x'); }] *)
Definition throws_after_next : AsyncJsonrpcMiddleware request response :=
  CallNext (AwaitTick (Throw (VError "x"))).

(** [async (req, res, next) => { await next(); throw undefined; }] *)
Definition throws_undefined_late : AsyncJsonrpcMiddleware request response :=
  CallNext (AwaitNext (Throw VUndefined)).

(** [async (req, res, next) => { next(); await other; await other; throw 0; }] *)
Definition throws_zero_after_next : AsyncJsonrpcMiddleware request response :=
  CallNext (AwaitTick (AwaitTick (Throw (VNum 0)))).

(** [async (req, res, next) => { next(); throw undefined; }] *)
Definition throws_undefined_early : AsyncJsonrpcMiddleware request response :=
  CallNext (Throw VUndefined).

End Scenario.

Module Edge.

Import Scenario.

(** An engine that never calls a return handler. *)
Definition mute : engine response :=
  mkEngine (fun _ => None) (fun _ _ => None) (fun _ _ _ => None).

(** An engine whose [end] and whose callbacks throw when they are called
    with [null] and return otherwise. *)
Definition picky : engine response :=
  mkEngine (fun i => Some (1, 7 + i, fun r => r))
           (fun l v => match v with
                       | VNull => Some (VError "end")
                       | _ => None
                       end)
           (fun l cb v => match v with
                          | VNull => Some (VError "callback")
                          | _ => None
                          end).

(** An engine that calls the two return handlers it is given last first,
    one turn apart, and whose downstream stages set the result. *)
Definition twice : engine response :=
  mkEngine (fun i => Some (2 - i, 7 + i, set_result 5))
           (fun _ _ => None) (fun _ _ _ => None).

(** [async (req, res, next) => { next(); next(); }] *)
Definition calls_next_twice : AsyncJsonrpcMiddleware request response :=
  CallNext (CallNext Resolve).

(** [async () => { await new Promise(() => {}); }] *)
Definition hangs : AsyncJsonrpcMiddleware request response :=
  SetRes (set_result 1) Stall.

End Edge.

(** * Facts *)

Section Facts.

Variables Req Res : Type.
Variable E : engine Res.

Local Abbreviation state := (state Req Res).
Local Abbreviation config := (config Req Res).
Local Abbreviation handler := (AsyncJsonrpcMiddleware Req Res).

Ltac prim :=
  unfold asyncNext, next, engine_invoke, returnHandler, record, write_res,
    write_req, set_returnHandlers, set_nextWasCalled, count_next in *;
  simpl in *.

(** ** Turns *)

Lemma turns_turn n : forall c : config,
  turns E (S n) c = turn E (turns E n c).
Proof.
  induction n as [|n IH]; intro c; [reflexivity|].
  change (turns E (S (S n)) c) with (turns E (S n) (turn E c)).
  rewrite IH. reflexivity.
Qed.

Lemma turns_add n m : forall c : config,
  turns E (n + m) c = turns E m (turns E n c).
Proof.
  induction n as [|n IH]; intro c; simpl; [reflexivity|apply IH].
Qed.

Lemma run_S (h : handler) rq rs n :
  run E h rq rs (S n) = turn E (run E h rq rs n).
Proof. unfold run. apply turns_turn. Qed.

Lemma run_add (h : handler) rq rs n m :
  run E h rq rs (n + m) = turns E m (run E h rq rs n).
Proof. unfold run. apply turns_add. Qed.

(** ** Properties of the state kept by every segment *)

Section Closure.

Variable P : state -> Prop.

Hypothesis P_res : forall f s, P s -> P (write_res f s).
Hypothesis P_req : forall g s, P s -> P (write_req g s).
Hypothesis P_asyncNext : forall s, P s -> P (asyncNext E s).

Lemma sync_closed (h : handler) : forall s, P s -> P (snd (sync E h s)).
Proof.
  induction h as [| e | f k IH | g k IH | k IH | k IH | k IH | k IH |];
    intros s Hs; simpl; auto.
Qed.

Hypothesis P_turn : forall s, P s -> P (engine_turn s).

Hypothesis P_end : forall v s, P s -> P (record (EndCalled v (res s)) s).
Hypothesis P_callback : forall cb v s,
  returnHandlerCallback s = Some cb -> P s ->
  P (record (CallbackCalled cb v (res s)) s).

Lemma catch_branch_closed v s : P s -> P (snd (catch_branch E v s)).
Proof.
  intro Hs. unfold catch_branch.
  destruct (returnHandlerCallback s) as [cb|] eqn:Hcb;
    unfold settle, call_callback, call_end; simpl.
  - destruct (callback_throws E (trace s) cb v); simpl; auto.
  - destruct (end_throws E (trace s) v); simpl; auto.
Qed.

Lemma after_handler_closed s : P s -> P (snd (after_handler E s)).
Proof.
  intro Hs. unfold after_handler. destruct (nextWasCalled s); [exact Hs|].
  unfold in_try, call_end; simpl.
  destruct (end_throws E (trace s) VNull); simpl; auto.
  apply catch_branch_closed; auto.
Qed.

Lemma after_nextPromise_closed s : P s -> P (snd (after_nextPromise E s)).
Proof.
  intro Hs. unfold after_nextPromise.
  destruct (returnHandlerCallback s) as [cb|] eqn:Hcb.
  - unfold in_try, call_callback; simpl.
    destruct (callback_throws E (trace s) cb VNull); simpl; auto.
    apply catch_branch_closed; auto.
  - apply catch_branch_closed, Hs.
Qed.

Lemma resume_closed (c : config) : P (snd c) -> P (snd (resume E c)).
Proof.
  destruct c as [ctl s]; simpl; intro Hs.
  destruct ctl as [[| |] k | [e|] | | o]; simpl; auto.
  - apply sync_closed, Hs.
  - destruct (nextPromise s); [apply sync_closed, Hs | exact Hs].
  - apply catch_branch_closed, Hs.
  - apply after_handler_closed, Hs.
  - destruct (nextPromise s); [|exact Hs].
    apply after_nextPromise_closed, Hs.
Qed.

Lemma turn_closed (c : config) : P (snd c) -> P (snd (turn E c)).
Proof.
  intro Hs. unfold turn. apply resume_closed. simpl.
  apply P_turn, Hs.
Qed.

Lemma turns_closed n : forall c : config,
  P (snd c) -> P (snd (turns E n c)).
Proof.
  induction n as [|n IH]; intros c Hc; simpl; [exact Hc|].
  apply IH, turn_closed, Hc.
Qed.

Lemma run_closed (h : handler) rq rs n :
  P (initial rq rs) -> P (snd (run E h rq rs n)).
Proof.
  intro H0. unfold run, createAsyncMiddleware.
  apply turns_closed, sync_closed, H0.
Qed.

End Closure.

(** The engine's turn keeps what each call of a return handler keeps and what
    does not depend on the handlers the engine holds. *)
Lemma call_due_closed (P : state -> Prop) :
  (forall cb g s, P s -> P (engine_invoke cb g s)) ->
  forall (l : list (pending Res)) s, P s -> P (fst (call_due l s)).
Proof.
  intros P_invoke.
  induction l as [|[[d cb] g] l IH]; intros s Hs; simpl; [exact Hs|].
  destruct d as [|d].
  - apply IH, P_invoke, Hs.
  - specialize (IH s Hs). destruct (call_due l s); exact IH.
Qed.

Lemma engine_turn_closed (P : state -> Prop) :
  (forall cb g s, P s -> P (engine_invoke cb g s)) ->
  (forall l s, P s -> P (set_returnHandlers l s)) ->
  forall s, P s -> P (engine_turn s).
Proof.
  intros P_invoke P_handlers s Hs. unfold engine_turn.
  pose proof (call_due_closed P P_invoke (returnHandlers s) s Hs) as H.
  destruct (call_due (returnHandlers s) s); apply P_handlers, H.
Qed.

(** ** Traces *)

Lemma snoc_split (A : Type) (l before after : list A) (e x : A) :
  l ++ [e] = before ++ x :: after ->
  (after = [] /\ l = before /\ e = x) \/
  (exists after', after = after' ++ [e] /\ l = before ++ x :: after').
Proof.
  destruct after as [|a after] using rev_ind; intro H.
  - left. apply app_inj_tail in H. tauto.
  - right. exists after.
    change (before ++ x :: after ++ [a])
      with (before ++ (x :: after) ++ [a]) in H.
    rewrite app_assoc in H. apply app_inj_tail in H.
    destruct H as [H1 H2]. subst. auto.
Qed.

Lemma registered_first_nil : registered_first (@nil (event Res)).
Proof. intros [|] ? ? ? ? H; discriminate H. Qed.

Lemma registered_first_other (l : list (event Res)) e :
  (forall cb v r, e <> CallbackCalled cb v r) ->
  registered_first l -> registered_first (l ++ [e]).
Proof.
  intros He Hl before cb v r after H.
  apply snoc_split in H. destruct H as [(_ & _ & H) | (after' & _ & H)].
  - exfalso. exact (He _ _ _ H).
  - exact (Hl _ _ _ _ _ H).
Qed.

Lemma registered_first_callback (l : list (event Res)) cb v r :
  In (Registered cb) l ->
  registered_first l -> registered_first (l ++ [CallbackCalled cb v r]).
Proof.
  intros Hin Hl before cb' v' r' after H.
  apply snoc_split in H. destruct H as [(_ & H1 & H2) | (after' & _ & H)].
  - inversion H2; subst. exact Hin.
  - exact (Hl _ _ _ _ _ H).
Qed.

Lemma next_count_snoc (l : list (event Res)) e :
  next_count (l ++ [e]) = next_count l + (if is_next e then 1 else 0).
Proof.
  unfold next_count. rewrite filter_app, length_app. simpl.
  destruct (is_next e); reflexivity.
Qed.

Lemma completions_snoc (l : list (event Res)) e :
  completions (l ++ [e]) =
  completions l ++ (if is_completion e then [e] else []).
Proof. unfold completions. rewrite filter_app. reflexivity. Qed.

(** ** [sound] holds at every turn *)

Lemma sound_initial rq rs : sound (initial rq rs : state).
Proof.
  unfold sound, initial; simpl. repeat split; try easy.
  apply registered_first_nil.
Qed.

Lemma sound_invoke cb g (s : state) : sound s -> sound (engine_invoke cb g s).
Proof.
  intros (H1 & H2 & H3 & H4 & H5). unfold sound. prim.
  repeat split; try easy.
  - intros cb' H. inversion H; subst. apply in_or_app. right. left. easy.
  - apply registered_first_other; [discriminate | exact H3].
  - rewrite next_count_snoc. simpl. lia.
Qed.

Lemma sound_asyncNext (s : state) : sound s -> sound (asyncNext E s).
Proof.
  intros (H1 & H2 & H3 & H4 & H5).
  assert (Hrec : sound (count_next (record NextCalled (set_nextWasCalled s)))).
  { unfold sound. prim. repeat split; try apply H1.
    - intros cb H. apply in_or_app. left. auto.
    - apply registered_first_other; [discriminate | exact H3].
    - rewrite next_count_snoc. simpl. lia. }
  unfold asyncNext, next.
  change (nextCalls (set_nextWasCalled s)) with (nextCalls s).
  destruct (supply E (nextCalls s)) as [[[[|d] cb] g]|].
  - apply sound_invoke, Hrec.
  - exact Hrec.
  - exact Hrec.
Qed.

Lemma sound_end v (s : state) :
  sound s -> sound (record (EndCalled v (res s)) s).
Proof.
  intros (H1 & H2 & H3 & H4 & H5). unfold sound. prim.
  repeat split; try apply H1; auto.
  - intros cb H. apply in_or_app. left. auto.
  - apply registered_first_other; [discriminate | exact H3].
  - rewrite next_count_snoc. simpl. lia.
Qed.

Lemma sound_callback cb v (s : state) :
  returnHandlerCallback s = Some cb ->
  sound s -> sound (record (CallbackCalled cb v (res s)) s).
Proof.
  intros Hcb (H1 & H2 & H3 & H4 & H5). unfold sound. prim.
  repeat split; try apply H1; auto.
  - intros cb' H. apply in_or_app. left. auto.
  - apply registered_first_callback; auto.
  - rewrite next_count_snoc. simpl. lia.
Qed.

Lemma sound_engine_turn (s : state) : sound s -> sound (engine_turn s).
Proof.
  apply engine_turn_closed; auto using sound_invoke.
Qed.

Lemma sound_run (h : handler) rq rs n : sound (snd (run E h rq rs n)).
Proof.
  apply run_closed; auto using sound_asyncNext, sound_engine_turn, sound_end,
    sound_callback, sound_initial.
Qed.

Lemma sound_turns n : forall c : config,
  sound (snd c) -> sound (snd (turns E n c)).
Proof.
  apply turns_closed; auto using sound_asyncNext, sound_engine_turn,
    sound_end, sound_callback.
Qed.

(** ** What a turn of the engine changes *)

Lemma asyncNext_flag (s : state) : nextWasCalled (asyncNext E s) = true.
Proof.
  unfold asyncNext, next.
  destruct (supply E _) as [[[[|d] cb] g]|]; reflexivity.
Qed.

Lemma asyncNext_req (s : state) : req (asyncNext E s) = req s.
Proof.
  unfold asyncNext, next.
  destruct (supply E _) as [[[[|d] cb] g]|]; reflexivity.
Qed.

Lemma asyncNext_completions (s : state) :
  completions (trace (asyncNext E s)) = completions (trace s).
Proof.
  unfold asyncNext, next.
  destruct (supply E _) as [[[[|d] cb] g]|]; prim;
    repeat rewrite completions_snoc; simpl; repeat rewrite app_nil_r;
    reflexivity.
Qed.

Lemma asyncNext_next_count (s : state) :
  next_count (trace (asyncNext E s)) = S (next_count (trace s)).
Proof.
  unfold asyncNext, next.
  destruct (supply E _) as [[[[|d] cb] g]|]; prim;
    repeat rewrite next_count_snoc; simpl; lia.
Qed.

Lemma engine_turn_flag (s : state) :
  nextWasCalled (engine_turn s) = nextWasCalled s.
Proof.
  apply (engine_turn_closed (fun s' => nextWasCalled s' = nextWasCalled s));
    auto.
Qed.

Lemma engine_turn_req (s : state) : req (engine_turn s) = req s.
Proof.
  apply (engine_turn_closed (fun s' => req s' = req s)); auto.
Qed.

Lemma engine_turn_completions (s : state) :
  completions (trace (engine_turn s)) = completions (trace s).
Proof.
  apply (engine_turn_closed
           (fun s' => completions (trace s') = completions (trace s))); auto.
  intros cb g s' H. prim. rewrite completions_snoc. simpl.
  rewrite app_nil_r. exact H.
Qed.

Lemma engine_turn_next_count (s : state) :
  next_count (trace (engine_turn s)) = next_count (trace s).
Proof.
  apply (engine_turn_closed
           (fun s' => next_count (trace s') = next_count (trace s))); auto.
  intros cb g s' H. prim. rewrite next_count_snoc. simpl. lia.
Qed.

Lemma engine_turn_resolved (s : state) :
  nextPromise s = true -> nextPromise (engine_turn s) = true.
Proof.
  apply (engine_turn_closed (fun s' => nextPromise s' = true)); auto.
Qed.

Lemma engine_turn_idle (s : state) :
  returnHandlers s = [] -> engine_turn s = s.
Proof.
  destruct s; simpl. intros ->. reflexivity.
Qed.

Lemma call_due_resolved (l : list (pending Res)) (s : state) :
  nextPromise s = true -> nextPromise (fst (call_due l s)) = true.
Proof.
  apply (call_due_closed (fun s' => nextPromise s' = true)); auto.
Qed.

Lemma call_due_zero (l : list (pending Res)) : forall (s : state) cb g,
  In (0, cb, g) l -> nextPromise (fst (call_due l s)) = true.
Proof.
  induction l as [|[[d cb'] g'] l IH]; intros s cb g Hin; [destruct Hin|].
  simpl. destruct Hin as [Heq | Hin].
  - inversion Heq; subst. apply call_due_resolved. reflexivity.
  - destruct d as [|d]; [eapply IH; eassumption|].
    specialize (IH s cb g Hin). destruct (call_due l s); exact IH.
Qed.

Lemma call_due_kept (l : list (pending Res)) : forall (s : state) d cb g,
  In (S d, cb, g) l -> In (d, cb, g) (snd (call_due l s)).
Proof.
  induction l as [|[[d' cb'] g'] l IH]; intros s d cb g Hin; [destruct Hin|].
  simpl. destruct Hin as [Heq | Hin].
  - inversion Heq; subst. destruct (call_due l s); left; reflexivity.
  - destruct d' as [|d']; [eapply IH; eassumption|].
    specialize (IH s d cb g Hin). destruct (call_due l s); right; exact IH.
Qed.

Lemma engine_turn_call_due (s : state) :
  nextPromise (engine_turn s) = nextPromise (fst (call_due (returnHandlers s) s))
  /\ returnHandlers (engine_turn s) = snd (call_due (returnHandlers s) s).
Proof.
  unfold engine_turn. destruct (call_due (returnHandlers s) s); simpl; auto.
Qed.

Lemma due_step d (s : state) :
  due_within d s ->
  nextPromise (engine_turn s) = true \/
  exists d', d = S d' /\ due_within d' (engine_turn s).
Proof.
  destruct (engine_turn_call_due s) as [Hp Hl].
  intros [H | (d' & cb & g & Hle & Hin)].
  - left. apply engine_turn_resolved, H.
  - destruct d' as [|d'].
    + left. rewrite Hp. eapply call_due_zero; eassumption.
    + right. destruct d as [|d]; [lia|]. exists d. split; [reflexivity|].
      right. exists d', cb, g. split; [lia|]. rewrite Hl.
      apply call_due_kept, Hin.
Qed.

(** ** Suspended on the signal: woken once the engine has called *)

Lemma wake (ctl : control Req Res) (F : state -> config) :
  (forall s, resume E (ctl, s) = if nextPromise s then F s else (ctl, s)) ->
  forall d s, due_within d s ->
  exists n, turns E (S n) (ctl, s) = F (engine_turns (S n) s)
            /\ nextPromise (engine_turns (S n) s) = true.
Proof.
  intros HF.
  assert (Hturn : forall s, turn E (ctl, s) =
            if nextPromise (engine_turn s) then F (engine_turn s)
            else (ctl, engine_turn s)).
  { intro s. unfold turn; simpl fst; simpl snd. apply HF. }
  assert (Hnow : forall s, nextPromise (engine_turn s) = true ->
            turns E 1 (ctl, s) = F (engine_turns 1 s)
            /\ nextPromise (engine_turns 1 s) = true).
  { intros s Hp. change (turns E 1 (ctl, s)) with (turn E (ctl, s)).
    change (engine_turns 1 s) with (engine_turn s).
    rewrite Hturn, Hp. auto. }
  induction d as [|d IH]; intros s Hd;
    destruct (due_step Hd) as [Hp | (d' & Heq & Hd')].
  - exists 0. auto.
  - discriminate Heq.
  - exists 0. auto.
  - inversion Heq; subst d'.
    destruct (nextPromise (engine_turn s)) eqn:Hp.
    + exists 0. auto.
    + destruct (IH _ Hd') as (n & Hn & Hn').
      exists (S n). split; [|exact Hn'].
      change (turns E (S (S n)) (ctl, s))
        with (turns E (S n) (turn E (ctl, s))).
      rewrite Hturn, Hp. exact Hn.
Qed.

Lemma engine_turns_closed (P : state -> Prop) :
  (forall s, P s -> P (engine_turn s)) ->
  forall n s, P s -> P (engine_turns n s).
Proof.
  intros HP. induction n as [|n IH]; intros s Hs; simpl; auto.
Qed.

(** ** [served] holds at every turn, when the engine keeps its contract *)

Section Served.

Hypothesis E_supplies : supplies E.

Lemma served_asyncNext (s : state) : served (asyncNext E s).
Proof.
  unfold served, asyncNext, next.
  change (nextCalls (set_nextWasCalled s)) with (nextCalls s).
  pose proof (E_supplies (nextCalls s)) as Hsup.
  destruct (supply E (nextCalls s)) as [[[[|d] cb] g]|]; [| |congruence];
    intros _; prim; auto.
  right. destruct (returnHandlers s); discriminate.
Qed.

Lemma served_engine_turn (s : state) : served s -> served (engine_turn s).
Proof.
  unfold served. rewrite engine_turn_flag. intros Hs Hflag.
  destruct (Hs Hflag) as [Hp | Hl].
  - left. apply engine_turn_resolved, Hp.
  - destruct (engine_turn_call_due s) as [Hp' Hl'].
    destruct (returnHandlers s) as [|[[[|d] cb] g] l] eqn:Hrh; [congruence| |].
    + left. rewrite Hp'. eapply call_due_zero. left. reflexivity.
    + right. rewrite Hl'. intro Hnil.
      pose proof (call_due_kept ((S d, cb, g) :: l) s d cb g
                    (or_introl eq_refl)) as Hin.
      exact (eq_ind _ (fun kept => In (d, cb, g) kept) Hin _ Hnil).
Qed.

Lemma served_turns n : forall c : config,
  served (snd c) -> served (snd (turns E n c)).
Proof.
  apply turns_closed; auto using served_asyncNext, served_engine_turn.
Qed.

Lemma served_run (h : handler) rq rs n : served (snd (run E h rq rs n)).
Proof.
  apply run_closed; auto using served_asyncNext, served_engine_turn.
  unfold served, initial; simpl. discriminate.
Qed.

Lemma served_due (s : state) :
  served s -> nextWasCalled s = true -> exists d, due_within d s.
Proof.
  intros Hs Hflag. destruct (Hs Hflag) as [Hp | Hl].
  - exists 0. left. exact Hp.
  - destruct (returnHandlers s) as [|[[d cb] g] l] eqn:Hrh; [congruence|].
    exists d. right. exists d, cb, g. rewrite Hrh. split; [lia|left; reflexivity].
Qed.

(** The async middleware, if it settles at all, settles after finitely many
    turns. *)
Lemma handler_settles b (h : handler) :
  settles b h ->
  forall s, nextWasCalled s = b -> served s ->
  exists n r s', turns E n (sync E h s) = (HandlerSettled r, s').
Proof.
  induction 1 as [b | b e | b f k _ IH | b g k _ IH | b k _ IH | b k _ IH
                 | k _ IH | b k _ IH]; intros s Hflag Hs; simpl.
  - exists 0, None, s. reflexivity.
  - exists 0, (Some e), s. reflexivity.
  - apply IH; auto.
  - apply IH; auto.
  - apply IH; auto.
  - apply IH; [apply asyncNext_flag | apply served_asyncNext].
  - destruct (served_due Hs Hflag) as [d Hd].
    destruct (@wake (Suspended OnNext k) (sync E k) (fun s => eq_refl) d s Hd)
      as (n & Hn & _).
    destruct (IH (engine_turns (S n) s)) as (m & r & s' & Hm).
    + apply (engine_turns_closed (fun s' => nextWasCalled s' = true));
        [intros s0; rewrite engine_turn_flag; auto | exact Hflag].
    + apply engine_turns_closed; [apply served_engine_turn | exact Hs].
    + exists (S n + m), r, s'. rewrite turns_add, Hn. exact Hm.
  - destruct (IH (engine_turn s)) as (m & r & s' & Hm).
    + rewrite engine_turn_flag. exact Hflag.
    + apply served_engine_turn, Hs.
    + exists (S m), r, s'. exact Hm.
Qed.

End Served.

(** ** The wrapper's branches *)

Lemma routed_is_completion v (s : state) : is_completion (routed v s) = true.
Proof. unfold routed. destruct (returnHandlerCallback s); reflexivity. Qed.

Lemma catch_branch_state v (s : state) :
  snd (catch_branch E v s) = record (routed v s) s.
Proof.
  unfold catch_branch, routed, settle, call_callback, call_end.
  destruct (returnHandlerCallback s) as [cb|]; simpl;
    [destruct (callback_throws E (trace s) cb v)
    |destruct (end_throws E (trace s) v)]; reflexivity.
Qed.

Lemma catch_branch_finished v (s : state) :
  exists o, fst (catch_branch E v s) = Finished o.
Proof.
  unfold catch_branch, settle, call_callback, call_end.
  destruct (returnHandlerCallback s) as [cb|]; simpl;
    [destruct (callback_throws E (trace s) cb v)
    |destruct (end_throws E (trace s) v)]; simpl; eauto.
Qed.

Lemma in_try_finished (r : state * option value) :
  exists o, fst (in_try E r) = Finished o.
Proof.
  unfold in_try. destruct (snd r); [apply catch_branch_finished|].
  simpl; eauto.
Qed.

Lemma after_nextPromise_finished (s : state) :
  exists o, fst (after_nextPromise E s) = Finished o.
Proof.
  unfold after_nextPromise.
  destruct (returnHandlerCallback s);
    [apply in_try_finished | apply catch_branch_finished].
Qed.

Lemma after_handler_unrequested (s : state) :
  nextWasCalled s = false ->
  end_throws E (trace s) VNull = None ->
  after_handler E s = (Finished Resolved, record (EndCalled VNull (res s)) s).
Proof.
  intros Hflag Hend. unfold after_handler, in_try, call_end.
  rewrite Hflag. simpl. rewrite Hend. reflexivity.
Qed.

Lemma after_nextPromise_captured (s : state) cb :
  returnHandlerCallback s = Some cb ->
  callback_throws E (trace s) cb VNull = None ->
  after_nextPromise E s =
  (Finished Resolved, record (CallbackCalled cb VNull (res s)) s).
Proof.
  intros Hcb Hret. unfold after_nextPromise, in_try, call_callback.
  rewrite Hcb. simpl. rewrite Hret. reflexivity.
Qed.

Lemma sync_in_handler (h : handler) : forall s,
  in_handler (fst (sync E h s)).
Proof.
  induction h as [| e | f k IH | g k IH | k IH | k IH | k IH | k IH |];
    intro s; simpl; auto.
Qed.

Lemma sync_completions (h : handler) (s : state) :
  completions (trace (snd (sync E h s))) = completions (trace s).
Proof.
  apply (sync_closed (fun s' => completions (trace s') = completions (trace s)));
    auto.
  intros s' H. rewrite asyncNext_completions. exact H.
Qed.

Lemma sync_next_called (h : handler) (s : state) :
  nextWasCalled s = true -> nextWasCalled (snd (sync E h s)) = true.
Proof.
  apply (sync_closed (fun s' => nextWasCalled s' = true)); auto.
  intros s' _. apply asyncNext_flag.
Qed.

(** ** After the end *)

Lemma turns_finished n : forall o (s : state),
  turns E n (Finished o, s) = (Finished o, engine_turns n s).
Proof.
  induction n as [|n IH]; intros o s; simpl; [reflexivity|].
  unfold turn; simpl. apply IH.
Qed.

Lemma engine_turns_completions n : forall s : state,
  completions (trace (engine_turns n s)) = completions (trace s).
Proof.
  induction n as [|n IH]; intro s; simpl; [reflexivity|].
  rewrite IH. apply engine_turn_completions.
Qed.

Lemma engine_turns_flag n : forall s : state,
  nextWasCalled (engine_turns n s) = nextWasCalled s.
Proof.
  induction n as [|n IH]; intro s; simpl; [reflexivity|].
  rewrite IH. apply engine_turn_flag.
Qed.

Lemma engine_turns_idle n : forall s : state,
  returnHandlers s = [] -> engine_turns n s = s.
Proof.
  induction n as [|n IH]; intros s Hs; simpl; [reflexivity|].
  rewrite (engine_turn_idle s Hs). apply IH, Hs.
Qed.

(** ** No completion call before the end *)

Lemma silent_turn (c : config) :
  silent_until_finished c -> silent_until_finished (turn E c).
Proof.
  destruct c as [ctl s]. unfold silent_until_finished, turn.
  simpl fst; simpl snd. intro H.
  assert (Hs : forall h, completions (trace s) = [] ->
                 match fst (sync E h (engine_turn s)) with
                 | Finished _ => True
                 | _ => completions (trace (snd (sync E h (engine_turn s)))) = []
                 end).
  { intros h H0. rewrite sync_completions, engine_turn_completions.
    pose proof (sync_in_handler h (engine_turn s)) as Hin.
    destruct (fst (sync E h (engine_turn s))); simpl in Hin; tauto. }
  destruct ctl as [[| |] k | [e|] | | o]; simpl in *.
  - apply Hs, H.
  - destruct (nextPromise (engine_turn s)); [apply Hs, H|].
    simpl. rewrite engine_turn_completions. exact H.
  - rewrite engine_turn_completions. exact H.
  - destruct (catch_branch_finished e (engine_turn s)) as [o ->]. exact I.
  - unfold after_handler. destruct (nextWasCalled (engine_turn s)).
    + simpl. rewrite engine_turn_completions. exact H.
    + destruct (in_try_finished (call_end E VNull (engine_turn s))) as [o ->].
      exact I.
  - destruct (nextPromise (engine_turn s)).
    + destruct (after_nextPromise_finished (engine_turn s)) as [o ->]. exact I.
    + simpl. rewrite engine_turn_completions. exact H.
  - exact I.
Qed.

Lemma silent_run (h : handler) rq rs n :
  silent_until_finished (run E h rq rs n).
Proof.
  induction n as [|n IH].
  - unfold run, createAsyncMiddleware, silent_until_finished. simpl turns.
    pose proof (sync_in_handler h (initial rq rs)) as Hin.
    pose proof (sync_completions h (initial rq rs)) as Hc.
    destruct (fst (sync E h (initial rq rs))); simpl in Hin; tauto.
  - rewrite run_S. apply silent_turn, IH.
Qed.

(** ** One completion call at the end, when the channels return *)

Section Channels.

Hypothesis E_end : end_returns E.
Hypothesis E_callbacks : callbacks_return E.

Lemma catch_branch_returns v (s : state) :
  catch_branch E v s = (Finished Resolved, record (routed v s) s).
Proof.
  unfold catch_branch, routed, settle, call_callback, call_end.
  destruct (returnHandlerCallback s) as [cb|]; simpl;
    [rewrite E_callbacks | rewrite E_end]; reflexivity.
Qed.

Lemma completed_catch v (s : state) :
  completions (trace s) = [] -> completed_once (catch_branch E v s).
Proof.
  intro H. rewrite catch_branch_returns. unfold completed_once; simpl.
  split; [reflexivity|]. exists (routed v s).
  rewrite completions_snoc, H, routed_is_completion. reflexivity.
Qed.

Lemma completed_turn (c : config) :
  completed_once c -> completed_once (turn E c).
Proof.
  destruct c as [ctl s]. unfold turn. simpl fst; simpl snd. intro H.
  assert (Hs : forall h, completions (trace s) = [] ->
                 completed_once (sync E h (engine_turn s))).
  { intros h H0. unfold completed_once.
    rewrite sync_completions, engine_turn_completions.
    pose proof (sync_in_handler h (engine_turn s)) as Hin.
    destruct (fst (sync E h (engine_turn s))); simpl in Hin; tauto. }
  assert (He : forall ctl', in_handler ctl' \/ ctl' = AwaitNextPromise ->
                 completions (trace s) = [] ->
                 completed_once (ctl', engine_turn s)).
  { intros ctl' Hctl H0. unfold completed_once; simpl.
    rewrite engine_turn_completions.
    destruct ctl'; simpl in Hctl; try exact H0.
    destruct Hctl as [[]|Hctl]; discriminate Hctl. }
  destruct ctl as [[| |] k | [e|] | | o]; simpl; unfold completed_once in H;
    simpl in H.
  - apply Hs, H.
  - destruct (nextPromise (engine_turn s)); [apply Hs, H|].
    apply He; simpl; auto.
  - apply He; simpl; auto.
  - apply completed_catch. rewrite engine_turn_completions. exact H.
  - unfold after_handler. destruct (nextWasCalled (engine_turn s)) eqn:Hflag.
    + apply He; auto.
    + unfold in_try, call_end; simpl. rewrite E_end.
      unfold completed_once; simpl. split; [reflexivity|].
      rewrite completions_snoc, engine_turn_completions, H. simpl. eauto.
  - destruct (nextPromise (engine_turn s)); [|apply He; auto].
    unfold after_nextPromise.
    destruct (returnHandlerCallback (engine_turn s)) as [cb|].
    + unfold in_try, call_callback; simpl. rewrite E_callbacks.
      unfold completed_once; simpl. split; [reflexivity|].
      rewrite completions_snoc, engine_turn_completions, H. simpl. eauto.
    + apply completed_catch. rewrite engine_turn_completions. exact H.
  - unfold completed_once; simpl. rewrite engine_turn_completions. exact H.
Qed.

Lemma completed_run (h : handler) rq rs n :
  completed_once (run E h rq rs n).
Proof.
  induction n as [|n IH].
  - unfold run, createAsyncMiddleware, completed_once. simpl turns.
    pose proof (sync_in_handler h (initial rq rs)) as Hin.
    pose proof (sync_completions h (initial rq rs)) as Hc.
    destruct (fst (sync E h (initial rq rs))); simpl in Hin; tauto.
  - rewrite run_S. apply completed_turn, IH.
Qed.

End Channels.

(** ** From the async middleware's settlement to the end *)

Section Liveness.

Hypothesis E_supplies : supplies E.

Lemma awaited_signal (s : state) :
  served s -> nextWasCalled s = true ->
  exists n, let s' := engine_turns (S n) (engine_turn s) in
    turns E (S (S n)) (HandlerSettled None, s) = after_nextPromise E s'
    /\ nextPromise s' = true.
Proof.
  intros Hs Hflag.
  assert (Hs' : served (engine_turn s)) by (apply served_engine_turn; auto).
  assert (Hflag' : nextWasCalled (engine_turn s) = true)
    by (rewrite engine_turn_flag; exact Hflag).
  destruct (served_due Hs' Hflag') as [d Hd].
  destruct (@wake AwaitNextPromise (after_nextPromise E) (fun s => eq_refl)
              d _ Hd) as (n & Hn & Hp).
  exists n. split; [|exact Hp].
  change (turns E (S (S n)) (HandlerSettled None, s))
    with (turns E (S n) (turn E (HandlerSettled None, s))).
  unfold turn at 1. simpl fst; simpl snd. simpl resume.
  unfold after_handler. rewrite Hflag'. exact Hn.
Qed.

Lemma wrapper_finishes r (s : state) :
  served s -> exists m o, fst (turns E (S m) (HandlerSettled r, s)) = Finished o.
Proof.
  intro Hs. destruct r as [e|].
  - exists 0. simpl. unfold turn; simpl. apply catch_branch_finished.
  - destruct (nextWasCalled s) eqn:Hflag.
    + destruct (awaited_signal Hs Hflag) as (n & Hn & _).
      exists (S n). rewrite Hn. apply after_nextPromise_finished.
    + exists 0. simpl. unfold turn; simpl. unfold after_handler.
      rewrite engine_turn_flag, Hflag. apply in_try_finished.
Qed.

Lemma call_finishes (h : handler) rq rs :
  settles false h ->
  exists N, forall n, N <= n -> exists o, fst (run E h rq rs n) = Finished o.
Proof.
  intro Hh.
  destruct (handler_settles E_supplies Hh (s := initial rq rs) eq_refl)
    as (n & r & s' & Hn).
  { unfold served; simpl; discriminate. }
  fold (createAsyncMiddleware E h rq rs) in Hn.
  fold (run E h rq rs n) in Hn.
  assert (Hs' : served s').
  { pose proof (served_run E_supplies h rq rs n) as H. rewrite Hn in H.
    exact H. }
  destruct (wrapper_finishes r Hs') as (m & o & Hm).
  exists (n + S m). intros n' Hle.
  replace n' with ((n + S m) + (n' - (n + S m))) by lia.
  rewrite run_add, run_add, Hn.
  destruct (turns E (S m) (HandlerSettled r, s')) as [ctl s'']; simpl in Hm.
  subst ctl. rewrite turns_finished. exists o. reflexivity.
Qed.

End Liveness.

(** ** An async middleware that does not touch [next] *)

Lemma locally_run (h : handler) : forall rq rs r rq' rs' k,
  locally h rq rs = Some (r, rq', rs', k) ->
  turns E k (sync E h (initial rq rs)) = (HandlerSettled r, initial rq' rs').
Proof.
  induction h as [| e | f h IH | g h IH | h IH | h IH | h IH | h IH |];
    intros rq rs r rq' rs' k Hloc; simpl in Hloc; try discriminate Hloc.
  - inversion Hloc; subst. reflexivity.
  - inversion Hloc; subst. reflexivity.
  - exact (IH _ _ _ _ _ _ Hloc).
  - exact (IH _ _ _ _ _ _ Hloc).
  - exact (IH _ _ _ _ _ _ _ _ Hloc).
  - destruct (locally h rq rs) as [[[[r0 rq0] rs0] n]|] eqn:Hh;
      [|discriminate Hloc].
    inversion Hloc; subst. exact (IH _ _ _ _ _ _ Hh).
Qed.

(** ** Counting the calls of [next] *)

Lemma sync_calls (h : handler) m :
  calls_next h m ->
  forall s, calls_balance (next_count (trace s) + m) (sync E h s).
Proof.
  unfold calls_balance.
  induction 1 as [| e | f k n _ IH | g k n _ IH | k n _ IH | k n _ IH
                 | k n Hk _ | k n Hk _ | n]; intro s; simpl.
  - exists 0. auto.
  - exists 0. auto.
  - apply (IH (write_res f s)).
  - apply (IH (write_req g s)).
  - apply IH.
  - destruct (IH (asyncNext E s)) as (left & Hl & Hc).
    exists left. split; [exact Hl|].
    rewrite asyncNext_next_count in Hc. lia.
  - exists n. auto.
  - exists n. auto.
  - exists n. simpl. auto.
Qed.

Lemma wrapper_next_count (ctl : control Req Res) (s : state) :
  ~ in_handler ctl \/ (exists r, ctl = HandlerSettled r) ->
  calls_left (fst (resume E (ctl, s))) 0 /\
  next_count (trace (snd (resume E (ctl, s)))) = next_count (trace s).
Proof.
  intro Hctl.
  assert (Hrec : forall (e : event Res) (s' : state), is_completion e = true ->
            next_count (trace s') = next_count (trace s) ->
            next_count (trace (record e s')) = next_count (trace s)).
  { intros e s' He Hs'. prim. rewrite next_count_snoc.
    destruct e; try discriminate He; simpl; lia. }
  split.
  - destruct ctl as [w k | [e|] | | o]; simpl.
    + exfalso. destruct Hctl as [H | [r H]]; [apply H; exact I | discriminate H].
    + destruct (catch_branch_finished e s) as [o ->]. reflexivity.
    + unfold after_handler. destruct (nextWasCalled s); [reflexivity|].
      destruct (in_try_finished (call_end E VNull s)) as [o ->]. reflexivity.
    + destruct (nextPromise s); [|reflexivity].
      destruct (after_nextPromise_finished s) as [o ->]. reflexivity.
    + reflexivity.
  - destruct ctl as [w k | [e|] | | o]; simpl; auto.
    + exfalso. destruct Hctl as [H | [r H]]; [apply H; exact I | discriminate H].
    + apply (catch_branch_closed
               (fun s' => next_count (trace s') = next_count (trace s))); auto.
    + apply (after_handler_closed
               (fun s' => next_count (trace s') = next_count (trace s))); auto.
    + destruct (nextPromise s); [|reflexivity].
      apply (after_nextPromise_closed
               (fun s' => next_count (trace s') = next_count (trace s))); auto.
Qed.

Lemma calls_turn total (c : config) :
  calls_balance total c -> calls_balance total (turn E c).
Proof.
  destruct c as [ctl s]. unfold calls_balance at 1. simpl fst; simpl snd.
  intros (left & Hl & Hc). unfold turn. simpl fst; simpl snd.
  rewrite <- (engine_turn_next_count s) in Hc.
  destruct ctl as [[| |] k | r | | o]; simpl in Hl.
  - simpl. rewrite <- Hc. apply sync_calls, Hl.
  - simpl. destruct (nextPromise (engine_turn s)).
    + rewrite <- Hc. apply sync_calls, Hl.
    + exists left. auto.
  - exists left. simpl. auto.
  - subst left.
    destruct (@wrapper_next_count (HandlerSettled r) (engine_turn s))
      as [H1 H2]; [right; eauto|].
    exists 0. rewrite H2. auto.
  - subst left.
    destruct (@wrapper_next_count AwaitNextPromise (engine_turn s))
      as [H1 H2]; [left; simpl; tauto|].
    exists 0. rewrite H2. auto.
  - subst left. exists 0. simpl. auto.
Qed.

Lemma calls_run (h : handler) total rq rs n :
  calls_next h total -> calls_balance total (run E h rq rs n).
Proof.
  intro Hh. induction n as [|n IH].
  - apply (sync_calls Hh (initial rq rs)).
  - rewrite run_S. apply calls_turn, IH.
Qed.

(** ** The request *)

Lemma sync_req (Q : Req -> Prop) (h : handler) :
  req_writes_keep Q h ->
  forall s, Q (req s) -> req_kept Q (sync E h s).
Proof.
  unfold req_kept.
  induction 1 as [| e | f k _ IH | g k Hg _ IH | k _ IH | k _ IH
                 | k Hk _ | k Hk _ |]; intros s Hs; simpl; auto.
  - apply IH. simpl. auto.
  - apply IH. rewrite asyncNext_req. exact Hs.
  - split; [exact Hs | constructor].
Qed.

Lemma wrapper_req (ctl : control Req Res) (s : state) :
  ~ in_handler ctl \/ (exists r, ctl = HandlerSettled r) ->
  req (snd (resume E (ctl, s))) = req s /\
  ~ in_handler (fst (resume E (ctl, s))).
Proof.
  intro Hctl. split.
  - destruct ctl as [w k | [e|] | | o]; simpl; auto.
    + exfalso. destruct Hctl as [H | [r H]]; [apply H; exact I | discriminate H].
    + apply (catch_branch_closed (fun s' => req s' = req s)); auto.
    + apply (after_handler_closed (fun s' => req s' = req s)); auto.
    + destruct (nextPromise s); [|reflexivity].
      apply (after_nextPromise_closed (fun s' => req s' = req s)); auto.
  - destruct ctl as [w k | [e|] | | o]; simpl; auto.
    + exfalso. destruct Hctl as [H | [r H]]; [apply H; exact I | discriminate H].
    + destruct (catch_branch_finished e s) as [o ->]. auto.
    + unfold after_handler. destruct (nextWasCalled s); [auto|].
      destruct (in_try_finished (call_end E VNull s)) as [o ->]. auto.
    + destruct (nextPromise s); [|auto].
      destruct (after_nextPromise_finished s) as [o ->]. auto.
Qed.

Lemma req_turn (Q : Req -> Prop) (c : config) :
  req_kept Q c -> req_kept Q (turn E c).
Proof.
  destruct c as [ctl s]. unfold req_kept at 1. simpl fst; simpl snd.
  intros [Hq Hk]. unfold turn. simpl fst; simpl snd.
  rewrite <- (engine_turn_req s) in Hq.
  assert (Hw : ~ in_handler ctl \/ (exists r, ctl = HandlerSettled r) ->
               req_kept Q (resume E (ctl, engine_turn s))).
  { intro Hctl. destruct (wrapper_req (engine_turn s) Hctl) as [H1 H2].
    unfold req_kept. rewrite H1. split; [exact Hq|].
    destruct (fst (resume E (ctl, engine_turn s))); simpl in H2; tauto. }
  destruct ctl as [[| |] k | r | | o].
  - simpl. apply sync_req; auto.
  - simpl. destruct (nextPromise (engine_turn s)).
    + apply sync_req; auto.
    + split; auto.
  - split; auto.
  - apply Hw. right. eauto.
  - apply Hw. left. simpl. tauto.
  - apply Hw. left. simpl. tauto.
Qed.

Lemma req_run (Q : Req -> Prop) (h : handler) rq rs n :
  req_writes_keep Q h -> Q rq -> req_kept Q (run E h rq rs n).
Proof.
  intros Hh Hq. induction n as [|n IH].
  - apply (sync_req Hh (initial rq rs)). exact Hq.
  - rewrite run_S. apply req_turn, IH.
Qed.

(** The wrapper and the engine commute with a change of the request. *)

Lemma call_due_set_req r (l : list (pending Res)) : forall s : state,
  call_due l (set_req r s) =
  (set_req r (fst (call_due l s)), snd (call_due l s)).
Proof.
  induction l as [|[[[|d] cb] g] l IH]; intro s; simpl.
  - reflexivity.
  - apply (IH (engine_invoke cb g s)).
  - rewrite (IH s). destruct (call_due l s); reflexivity.
Qed.

Lemma engine_turn_set_req r (s : state) :
  engine_turn (set_req r s) = set_req r (engine_turn s).
Proof.
  unfold engine_turn.
  change (returnHandlers (set_req r s)) with (returnHandlers s).
  rewrite call_due_set_req. destruct (call_due (returnHandlers s) s).
  reflexivity.
Qed.

Lemma asyncNext_set_req r (s : state) :
  asyncNext E (set_req r s) = set_req r (asyncNext E s).
Proof.
  unfold asyncNext, next.
  change (nextCalls (set_nextWasCalled (set_req r s))) with (nextCalls s).
  change (nextCalls (set_nextWasCalled s)) with (nextCalls s).
  destruct (supply E (nextCalls s)) as [[[[|d] cb] g]|]; reflexivity.
Qed.

Lemma catch_branch_set_req r v (s : state) :
  catch_branch E v (set_req r s) =
  (fst (catch_branch E v s), set_req r (snd (catch_branch E v s))).
Proof.
  unfold catch_branch, settle, call_callback, call_end.
  change (returnHandlerCallback (set_req r s)) with (returnHandlerCallback s).
  destruct (returnHandlerCallback s) as [cb|]; simpl;
    [destruct (callback_throws E (trace s) cb v)
    |destruct (end_throws E (trace s) v)]; reflexivity.
Qed.

Lemma after_handler_set_req r (s : state) :
  after_handler E (set_req r s) =
  (fst (after_handler E s), set_req r (snd (after_handler E s))).
Proof.
  unfold after_handler, in_try, call_end.
  change (nextWasCalled (set_req r s)) with (nextWasCalled s).
  destruct (nextWasCalled s); [reflexivity|]. simpl.
  destruct (end_throws E (trace s) VNull); [|reflexivity].
  apply (catch_branch_set_req r v (record (EndCalled VNull (res s)) s)).
Qed.

Lemma after_nextPromise_set_req r (s : state) :
  after_nextPromise E (set_req r s) =
  (fst (after_nextPromise E s), set_req r (snd (after_nextPromise E s))).
Proof.
  unfold after_nextPromise, in_try, call_callback.
  change (returnHandlerCallback (set_req r s)) with (returnHandlerCallback s).
  destruct (returnHandlerCallback s) as [cb|]; simpl.
  - destruct (callback_throws E (trace s) cb VNull); [|reflexivity].
    apply (catch_branch_set_req r v
             (record (CallbackCalled cb VNull (res s)) s)).
  - apply catch_branch_set_req.
Qed.

Lemma sync_hidden (h : handler) :
  req_blind h ->
  forall s r, req_hidden (sync E h (set_req r s)) (sync E h s).
Proof.
  unfold req_hidden.
  induction 1 as [| e | f k _ IH | g k _ IH | k Hk _ IH | k _ IH
                 | k Hk _ | k Hk _ |]; intros s r; simpl;
    try (repeat split; eauto; fail).
  - apply (IH (write_res f s) r).
  - apply (IH (write_req g s) (g r)).
  - rewrite (Hk r (req s) (res s)). apply IH.
  - rewrite asyncNext_set_req. apply IH.
  - repeat split; eauto. constructor.
Qed.

Lemma hidden_turn (c1 c2 : config) :
  req_hidden c1 c2 -> req_hidden (turn E c1) (turn E c2).
Proof.
  destruct c1 as [ctl1 s1], c2 as [ctl s]. unfold req_hidden at 1.
  simpl fst; simpl snd. intros (-> & [r ->] & Hk).
  unfold turn. simpl fst; simpl snd. rewrite engine_turn_set_req.
  assert (Hfin : forall (c : config) r',
            ~ in_handler (fst c) -> req_hidden (fst c, set_req r' (snd c)) c).
  { intros c r' Hc. unfold req_hidden. simpl. repeat split; eauto.
    destruct (fst c); simpl in Hc; tauto. }
  assert (Hw : ~ in_handler ctl \/ (exists t, ctl = HandlerSettled t) ->
               ~ in_handler (fst (resume E (ctl, engine_turn s))))
    by (intro Hctl; apply (wrapper_req (engine_turn s) Hctl)).
  destruct ctl as [[| |] k | [e|] | | o]; simpl resume.
  - apply sync_hidden, Hk.
  - change (nextPromise (set_req r (engine_turn s)))
      with (nextPromise (engine_turn s)).
    destruct (nextPromise (engine_turn s)).
    + apply sync_hidden, Hk.
    + unfold req_hidden. simpl. eauto.
  - unfold req_hidden. simpl. eauto.
  - rewrite catch_branch_set_req. apply Hfin.
    apply (Hw (or_intror (ex_intro _ (Some e) eq_refl))).
  - rewrite after_handler_set_req. apply Hfin.
    apply (Hw (or_intror (ex_intro _ None eq_refl))).
  - change (nextPromise (set_req r (engine_turn s)))
      with (nextPromise (engine_turn s)).
    assert (Hctl : ~ in_handler (@AwaitNextPromise Req Res)) by (simpl; tauto).
    specialize (Hw (or_introl Hctl)). simpl resume in Hw.
    destruct (nextPromise (engine_turn s)).
    + rewrite after_nextPromise_set_req. apply Hfin, Hw.
    + unfold req_hidden. simpl. eauto.
  - unfold req_hidden. simpl. eauto.
Qed.

Lemma hidden_run (h : handler) rq rq' rs n :
  req_blind h -> req_hidden (run E h rq rs n) (run E h rq' rs n).
Proof.
  intro Hh. induction n as [|n IH].
  - apply (sync_hidden Hh (initial rq' rs) rq).
  - rewrite !run_S. apply hidden_turn, IH.
Qed.

Lemma hidden_but_req (c1 c2 : config) :
  req_hidden c1 c2 -> but_req c1 = but_req c2.
Proof.
  destruct c1 as [ctl1 s1], c2 as [ctl s]. unfold req_hidden.
  simpl fst; simpl snd. intros (-> & [r ->] & _). reflexivity.
Qed.

(** ** Before [next] is called *)

Lemma asyncNext_nextCalls (s : state) :
  nextCalls (asyncNext E s) = S (nextCalls s).
Proof.
  unfold asyncNext, next.
  destruct (supply E _) as [[[[|d] cb] g]|]; reflexivity.
Qed.

Lemma engine_turn_nextCalls (s : state) :
  nextCalls (engine_turn s) = nextCalls s.
Proof.
  apply (engine_turn_closed (fun s' => nextCalls s' = nextCalls s)); auto.
Qed.

Lemma untouched_run (h : handler) rq rs n :
  untouched (snd (run E h rq rs n)).
Proof.
  apply run_closed; auto.
  - intros s _ H. rewrite asyncNext_nextCalls in H. discriminate H.
  - intros s Hs H. rewrite engine_turn_nextCalls in H.
    destruct (Hs H) as (Hl & Hcb & Hp).
    rewrite (engine_turn_idle s Hl). auto.
  - unfold untouched, initial; simpl. auto.
Qed.

Lemma unrequested_idle (h : handler) rq rs n :
  let s := snd (run E h rq rs n) in
  nextWasCalled s = false ->
  engine_turn s = s /\ returnHandlerCallback s = None.
Proof.
  intros s Hflag.
  destruct (sound_run h rq rs n) as (_ & _ & _ & _ & H5). fold s in H5.
  rewrite Hflag in H5.
  assert (H0 : nextCalls s = 0).
  { destruct (nextCalls s); [reflexivity | discriminate H5]. }
  destruct (untouched_run h rq rs n H0) as (Hl & Hcb & _).
  split; [apply engine_turn_idle, Hl | exact Hcb].
Qed.

(** ** The flag is never reset *)

Lemma next_called_turns n : forall c : config,
  nextWasCalled (snd c) = true -> nextWasCalled (snd (turns E n c)) = true.
Proof.
  apply (turns_closed (fun s => nextWasCalled s = true)); auto.
  - intros s _. apply asyncNext_flag.
  - intros s H. rewrite engine_turn_flag. exact H.
Qed.

(** ** The trace only grows *)

Lemma extends_refl (l : list (event Res)) : extends l l.
Proof. exists []. symmetry. apply app_nil_r. Qed.

Lemma extends_snoc (l l' : list (event Res)) e :
  extends l l' -> extends l (l' ++ [e]).
Proof.
  intros [more ->]. exists (more ++ [e]). symmetry. apply app_assoc.
Qed.

Lemma extends_turns (l : list (event Res)) n : forall c : config,
  extends l (trace (snd c)) -> extends l (trace (snd (turns E n c))).
Proof.
  assert (Hinv : forall cb g (s : state),
            extends l (trace s) -> extends l (trace (engine_invoke cb g s))).
  { intros cb g s H. prim. apply extends_snoc, H. }
  apply (turns_closed (fun s => extends l (trace s))); auto.
  - intros s H. unfold asyncNext, next.
    destruct (supply E _) as [[[[|d] cb] g]|]; prim;
      repeat apply extends_snoc; exact H.
  - apply engine_turn_closed; auto.
  - intros v s H. prim. apply extends_snoc, H.
  - intros cb v s _ H. prim. apply extends_snoc, H.
Qed.

Lemma extends_engine_turns (l : list (event Res)) n (s : state) :
  extends l (trace s) -> extends l (trace (engine_turns n s)).
Proof.
  apply (engine_turns_closed (fun s' => extends l (trace s'))).
  apply engine_turn_closed; auto.
  intros cb g s' H. prim. apply extends_snoc, H.
Qed.

Lemma after_nextPromise_calls (s : state) cb :
  returnHandlerCallback s = Some cb ->
  extends (trace s ++ [CallbackCalled cb VNull (res s)])
          (trace (snd (after_nextPromise E s))).
Proof.
  intro Hcb. unfold after_nextPromise, in_try, call_callback. rewrite Hcb.
  simpl. destruct (callback_throws E (trace s) cb VNull) as [e|]; simpl.
  - rewrite catch_branch_state. prim. apply extends_snoc, extends_refl.
  - apply extends_refl.
Qed.

End Facts.

(** * The claims *)

Import Scenario.

(** ** Exactly one completion call *)

(** C1, as stated, fails.  Take [async (req, res, next) => { next(); }] and
    an engine whose callbacks throw when they are called with [null].  The
    async middleware resolves with [nextWasCalled] set; the engine supplies
    callback 7; line 81 calls it with [null]; it throws, inside the [try];
    the [catch] block finds the callback captured and line 87 calls it
    again, with what it threw.  The same channel is invoked twice. *)
Lemma completion_twice_counterexample :
  let c := run Edge.picky forgets_next a_request empty_response 2 in
  fst c = Finished Resolved /\
  completions (trace (snd c))
  = [CallbackCalled 7 VNull empty_response;
     CallbackCalled 7 (VError "callback") empty_response] /\
  ~ completes_exactly_once Edge.picky forgets_next a_request empty_response.
Proof.
  repeat split.
  intro H. specialize (H 2). simpl in H. destruct H as [e H].
  discriminate H.
Defined.

(** C1, amended.  When [end] and the supplied callbacks return normally, a
    call of the produced middleware makes no completion call before it
    finishes and,
    once finished, has made exactly one: a single call of [end] or a single
    call of the captured callback, never both.  This holds for every async
    middleware, whether it calls [next()] or not and whether it throws or
    not; and when the async middleware settles and the engine calls every
    return handler it is given, the call does finish. *)
Theorem exactly_one_completion (Req Res : Type) (E : engine Res)
    (h : AsyncJsonrpcMiddleware Req Res) (rq : Req) (rs : Res) :
  end_returns E -> callbacks_return E ->
  (forall n,
     match fst (run E h rq rs n) with
     | Finished _ =>
         exists e, completions (trace (snd (run E h rq rs n))) = [e]
     | _ => completions (trace (snd (run E h rq rs n))) = []
     end) /\
  (supplies E -> settles false h ->
   exists N, forall n, N <= n ->
     (exists o, fst (run E h rq rs n) = Finished o) /\
     exists e, completions (trace (snd (run E h rq rs n))) = [e]).
Proof.
  intros Hend Hcb.
  assert (Hall : forall n,
            match fst (run E h rq rs n) with
            | Finished _ =>
                exists e, completions (trace (snd (run E h rq rs n))) = [e]
            | _ => completions (trace (snd (run E h rq rs n))) = []
            end).
  { intro n. pose proof (completed_run Hend Hcb h rq rs n) as H.
    unfold completed_once in H.
    destruct (fst (run E h rq rs n)); try exact H. apply H. }
  split; [exact Hall|].
  intros Hsup Hset. destruct (call_finishes Hsup rq rs Hset) as [N HN].
  exists N. intros n Hle. destruct (HN n Hle) as [o Ho].
  split; [eauto|]. specialize (Hall n). rewrite Ho in Hall. exact Hall.
Qed.

Lemma exactly_one_completion_witness :
  exists N, forall n, N <= n ->
    (exists o, fst (run (prompt 2) awaits_next a_request empty_response n)
               = Finished o) /\
    exists e,
      completions (trace (snd (run (prompt 2) awaits_next a_request empty_response n)))
      = [e].
Proof.
  apply (@exactly_one_completion _ _ (prompt 2) awaits_next a_request
            empty_response).
  - intros l v. reflexivity.
  - intros l cb v. reflexivity.
  - intros i. discriminate.
  - repeat constructor.
Defined.

(** ** Routing of a thrown error *)

(** C2, as stated, fails.  Take [async (req, res, next) => { next(); await
    other; throw new Error('x'); }] and an engine that calls the return
    handler two turns after [next].
    - The call: [asyncNext] sets [nextWasCalled] and hands the return handler
      to [next]; the body suspends on [other].
    - Turn 1: the body resumes and throws; [returnHandlerCallback] is still
      [null]; the [await] of line 77 will resume in the next turn.
    - Turn 2: the engine calls the return handler, which stores callback 7;
      then the [await] of line 77 resumes, the test of line 86 finds the
      callback and line 87 calls it with the error.  [end] is never called,
      although no callback was captured at the time of the throw. *)
Lemma routing_at_throw_counterexample :
  let thrown := run (prompt 2) throws_after_next a_request empty_response 1 in
  let caught := run (prompt 2) throws_after_next a_request empty_response 2 in
  fst thrown = HandlerSettled (Some (VError "x")) /\
  returnHandlerCallback (snd thrown) = None /\
  trace (snd caught)
  = [NextCalled; Registered 7;
     CallbackCalled 7 (VError "x") empty_response] /\
  ~ routed_as_at_throw (prompt 2) throws_after_next a_request empty_response.
Proof.
  repeat split.
  intro H. specialize (H 1 (VError "x") _ eq_refl). simpl in H.
  destruct H as [seen H]. discriminate H.
Defined.

(** C2, amended.  When the async middleware has thrown [e], the wrapper
    makes exactly one completion call, with [e], chosen by one rule read when
    its [catch] branch runs, that is when the [await] of line 77 resumes, one
    turn after the throw: the captured callback if there is one then, [end]
    otherwise.  The rule looks at [returnHandlerCallback] only, not at
    [nextWasCalled].  In particular a throw before [next()] was called
    reaches [end], and a throw after a callback was captured reaches a
    captured callback, not [end]. *)
Theorem error_routing (Req Res : Type) (E : engine Res)
    (h : AsyncJsonrpcMiddleware Req Res) (rq : Req) (rs : Res)
    (n : nat) (e : value) (s : state Req Res) :
  run E h rq rs n = (HandlerSettled (Some e), s) ->
  let s' := engine_turn s in
  let after := snd (run E h rq rs (S n)) in
  trace after = trace s' ++ [routed e s'] /\
  completions (trace after) = [routed e s'] /\
  (nextWasCalled s = false -> routed e s' = EndCalled e (res s)) /\
  (returnHandlerCallback s <> None ->
   exists cb, routed e s' = CallbackCalled cb e (res s')).
Proof.
  intros Hn s' after.
  assert (Hafter : after = record (routed e s') s').
  { unfold after. rewrite run_S, Hn. unfold turn; simpl.
    apply catch_branch_state. }
  pose proof (silent_run E h rq rs n) as Hsil.
  unfold silent_until_finished in Hsil. rewrite Hn in Hsil; simpl in Hsil.
  repeat split.
  - rewrite Hafter. reflexivity.
  - rewrite Hafter. simpl. rewrite completions_snoc, routed_is_completion.
    unfold s'. rewrite engine_turn_completions, Hsil. reflexivity.
  - intro Hflag. pose proof (unrequested_idle E h rq rs n) as Hidle.
    rewrite Hn in Hidle; simpl in Hidle.
    destruct (Hidle Hflag) as [Hturn Hcb].
    unfold s'. rewrite Hturn. unfold routed. rewrite Hcb. reflexivity.
  - intro Hcb. pose proof (sound_run E h rq rs n) as Hsound.
    rewrite Hn in Hsound; simpl in Hsound.
    destruct Hsound as [Hp _]. apply Hp in Hcb.
    apply engine_turn_resolved in Hcb. fold s' in Hcb.
    assert (Hsound' : sound s').
    { unfold s'. apply sound_engine_turn.
      pose proof (sound_run E h rq rs n) as H0. rewrite Hn in H0. exact H0. }
    destruct Hsound' as [Hp' _]. apply Hp' in Hcb.
    unfold routed. destruct (returnHandlerCallback s') as [cb|]; [eauto|].
    exfalso. apply Hcb. reflexivity.
Qed.

Lemma error_routing_witness :
  let s' := engine_turn
              (snd (run (prompt 2) throws_after_next a_request empty_response 1)) in
  trace (snd (run (prompt 2) throws_after_next a_request empty_response 2))
  = trace s' ++ [routed (VError "x") s'].
Proof.
  apply (@error_routing _ _ (prompt 2) throws_after_next a_request empty_response
            1 (VError "x")). reflexivity.
Defined.

(** C9, as stated, fails in its last part.  Take [async (req, res, next) =>
    { next(); await other; await other; throw 0; }] and an engine that calls
    the return handler three turns after [next]: [0] is thrown in turn 2,
    before any callback is captured; in turn 3 the engine calls the return
    handler, then the [await] of line 77 resumes and line 87 calls the
    captured callback with [0].  [end] is never called. *)
Lemma falsy_at_throw_counterexample :
  let thrown :=
    run (prompt 3) throws_zero_after_next a_request empty_response 2 in
  let caught :=
    run (prompt 3) throws_zero_after_next a_request empty_response 3 in
  fst thrown = HandlerSettled (Some (VNum 0)) /\
  returnHandlerCallback (snd thrown) = None /\
  trace (snd caught)
  = [NextCalled; Registered 7; CallbackCalled 7 (VNum 0) empty_response] /\
  ~ falsy_routed_as_at_throw (prompt 3) throws_zero_after_next a_request
      empty_response.
Proof.
  repeat split.
  intro H. specialize (H 2 (VNum 0) _ eq_refl eq_refl). simpl in H.
  destruct H as [seen H]. discriminate H.
Defined.

(** C9, amended.  The test of the [catch] branch is on the captured
    callback, not on what was thrown: a falsy value thrown when a callback
    was captured is the argument, unchanged, of the one completion call,
    which goes to a captured callback; thrown when no callback is captured
    by the time the [catch] branch runs, it is the argument, unchanged, of
    the one call of [end]. *)
Theorem falsy_error_delivered (Req Res : Type) (E : engine Res)
    (h : AsyncJsonrpcMiddleware Req Res) (rq : Req) (rs : Res)
    (n : nat) (v : value) (s : state Req Res) :
  truthy v = false ->
  run E h rq rs n = (HandlerSettled (Some v), s) ->
  (returnHandlerCallback s <> None ->
   exists cb seen,
     completions (trace (snd (run E h rq rs (S n))))
     = [CallbackCalled cb v seen]) /\
  (returnHandlerCallback (engine_turn s) = None ->
   exists seen,
     completions (trace (snd (run E h rq rs (S n)))) = [EndCalled v seen]).
Proof.
  intros _ Hn.
  assert (Hc : completions (trace (snd (run E h rq rs (S n))))
               = [routed v (engine_turn s)]).
  { rewrite run_S, Hn. unfold turn; simpl. rewrite catch_branch_state.
    simpl. rewrite completions_snoc, routed_is_completion.
    rewrite engine_turn_completions.
    pose proof (silent_run E h rq rs n) as Hsil.
    unfold silent_until_finished in Hsil. rewrite Hn in Hsil; simpl in Hsil.
    rewrite Hsil. reflexivity. }
  rewrite Hc. split.
  - intro Hcb. pose proof (sound_run E h rq rs n) as Hsound.
    rewrite Hn in Hsound; simpl in Hsound.
    destruct Hsound as [Hp _]. apply Hp in Hcb.
    apply engine_turn_resolved in Hcb.
    assert (Hsound' : sound (engine_turn s)).
    { apply sound_engine_turn.
      pose proof (sound_run E h rq rs n) as H0. rewrite Hn in H0. exact H0. }
    destruct Hsound' as [Hp' _]. apply Hp' in Hcb.
    unfold routed.
    destruct (returnHandlerCallback (engine_turn s)) as [cb|]; [eauto|].
    exfalso. apply Hcb. reflexivity.
  - intro Hcb. unfold routed. rewrite Hcb. eauto.
Qed.

Lemma falsy_error_delivered_witness :
  exists cb seen,
    completions
      (trace (snd (run (prompt 1) throws_undefined_late a_request empty_response 2)))
    = [CallbackCalled cb VUndefined seen].
Proof.
  apply (@falsy_error_delivered _ _ (prompt 1) throws_undefined_late a_request
            empty_response 1 VUndefined
            (snd (run (prompt 1) throws_undefined_late a_request empty_response 1))).
  - reflexivity.
  - reflexivity.
  - discriminate.
Defined.

(** The rule does not look at [nextWasCalled]: [next()] was called, no
    callback is captured when the [catch] branch runs, and the value, falsy
    here, goes to [end]. *)
Example requested_uncaptured_goes_to_end :
  trace (snd (run (prompt 5) throws_undefined_early a_request
                empty_response 1))
  = [NextCalled; EndCalled VUndefined empty_response].
Proof. reflexivity. Qed.

(** ** The two normal paths *)

(** C3.  When the async middleware has called [next()] and then resolved,
    awaiting the promise of [next()] or not, the captured callback is called
    with [null], as the first completion call, and the engine supplied that
    callback earlier in the trace: the wrapper waits on [nextPromise] again
    (line 80) before it calls it.  At no turn of any call is the signal
    resolved with no callback captured, and no callback is ever called
    before the engine supplied it. *)
Theorem continue_then_resolve (Req Res : Type) (E : engine Res)
    (h : AsyncJsonrpcMiddleware Req Res) (rq : Req) (rs : Res)
    (n : nat) (s : state Req Res) :
  run E h rq rs n = (HandlerSettled None, s) ->
  nextWasCalled s = true ->
  (forall m,
     registered_first (trace (snd (run E h rq rs m))) /\
     (nextPromise (snd (run E h rq rs m)) = true ->
      returnHandlerCallback (snd (run E h rq rs m)) <> None)) /\
  (supplies E ->
   exists N cb seen, forall m, N <= m ->
     (exists o, fst (run E h rq rs m) = Finished o) /\
     exists before after,
       trace (snd (run E h rq rs m))
       = before ++ CallbackCalled cb VNull seen :: after /\
       In (Registered cb) before /\
       completions before = []).
Proof.
  intros Hn Hflag. split.
  - intro m. destruct (sound_run E h rq rs m) as (H1 & _ & H3 & _).
    split; [exact H3 | apply H1].
  - intro Hsup.
    assert (Hserved : served s).
    { pose proof (served_run Hsup h rq rs n) as H. rewrite Hn in H. exact H. }
    assert (Hsound : sound s).
    { pose proof (sound_run E h rq rs n) as H. rewrite Hn in H. exact H. }
    destruct (awaited_signal E Hserved Hflag) as (k & Hk & Hp).
    set (s' := engine_turns (S k) (engine_turn s)) in *.
    assert (Hsound' : sound s').
    { apply engine_turns_closed; [apply sound_engine_turn|].
      apply sound_engine_turn, Hsound. }
    destruct Hsound' as (H1 & H2 & _).
    destruct (returnHandlerCallback s') as [cb|] eqn:Hcb;
      [|exfalso; apply H1; auto].
    assert (Hquiet : completions (trace s') = []).
    { unfold s'. rewrite engine_turns_completions, engine_turn_completions.
      pose proof (silent_run E h rq rs n) as Hsil.
      unfold silent_until_finished in Hsil. rewrite Hn in Hsil. exact Hsil. }
    exists (n + S (S k)), cb, (res s'). intros m Hle.
    replace m with ((n + S (S k)) + (m - (n + S (S k)))) by lia.
    rewrite run_add, run_add, Hn, Hk.
    pose proof (after_nextPromise_calls E s' Hcb) as Hext.
    destruct (after_nextPromise_finished E s') as [o Ho].
    destruct (after_nextPromise E s') as [ctl sF]. simpl in Ho, Hext.
    subst ctl. rewrite turns_finished. split; [simpl; eauto|].
    simpl snd.
    destruct (extends_engine_turns (m - (n + S (S k))) sF Hext)
      as [more Hmore].
    exists (trace s'), more. rewrite Hmore, <- app_assoc. simpl.
    repeat split; auto.
Qed.

Lemma continue_then_resolve_witness :
  exists N cb seen, forall m, N <= m ->
    (exists o, fst (run (prompt 3) forgets_next a_request empty_response m)
               = Finished o) /\
    exists before after,
      trace (snd (run (prompt 3) forgets_next a_request empty_response m))
      = before ++ CallbackCalled cb VNull seen :: after /\
      In (Registered cb) before /\
      completions before = [].
Proof.
  apply (@continue_then_resolve _ _ (prompt 3) forgets_next a_request empty_response
            0 (snd (run (prompt 3) forgets_next a_request empty_response 0))).
  - reflexivity.
  - reflexivity.
  - intros i. discriminate.
Defined.

(** C4, as stated, fails.  Take [async (req, res, next) => { res.result = 1;
    }] and an engine whose [end] throws when it is called with [null]:
    line 83 calls [end(null)], it throws inside the [try], the [catch] block
    finds no callback and line 89 calls [end] a second time, with what it
    threw. *)
Lemma finalize_twice_counterexample :
  trace (snd (run Edge.picky sets_result a_request empty_response 1))
  = [EndCalled VNull (mkResponse (Some 1%Z) None);
     EndCalled (VError "end") (mkResponse (Some 1%Z) None)] /\
  ~ finalizes_once Edge.picky sets_result a_request empty_response.
Proof.
  split; [reflexivity|].
  intro H. specialize (H _ _ _ eq_refl 1 (le_n 1)). discriminate H.
Defined.

(** C4, amended.  When the async middleware resolves without calling
    [next()], and [end(null)] returns normally, the wrapper calls [end] once, with [null],
    and calls nothing else; the response [end] sees is the response as the
    async middleware left it. *)
Theorem no_continue_finalize (Req Res : Type) (E : engine Res)
    (h : AsyncJsonrpcMiddleware Req Res) (rq rq' : Req) (rs rs' : Res)
    (k : nat) :
  end_throws E [] VNull = None ->
  locally h rq rs = Some (None, rq', rs', k) ->
  forall n, k < n ->
    fst (run E h rq rs n) = Finished Resolved /\
    trace (snd (run E h rq rs n)) = [EndCalled VNull rs'] /\
    res (snd (run E h rq rs n)) = rs' /\
    req (snd (run E h rq rs n)) = rq'.
Proof.
  intros Hend Hloc n Hlt.
  pose proof (locally_run E h rq rs Hloc) as Hk.
  fold (createAsyncMiddleware E h rq rs) in Hk. fold (run E h rq rs k) in Hk.
  assert (HS : run E h rq rs (S k)
               = (Finished Resolved,
                  record (EndCalled VNull rs') (initial rq' rs'))).
  { rewrite run_S, Hk. unfold turn. simpl fst; simpl snd.
    change (engine_turn (initial rq' rs')) with (initial rq' rs').
    simpl resume. apply (after_handler_unrequested E (initial rq' rs'));
      [reflexivity | exact Hend]. }
  replace n with (S k + (n - S k)) by lia.
  rewrite run_add, HS, turns_finished, engine_turns_idle by reflexivity.
  simpl. auto.
Qed.

Lemma no_continue_finalize_witness :
  fst (run (prompt 2) sets_result a_request empty_response 1) = Finished Resolved /\
  trace (snd (run (prompt 2) sets_result a_request empty_response 1))
  = [EndCalled VNull (mkResponse (Some 1%Z) None)] /\
  res (snd (run (prompt 2) sets_result a_request empty_response 1))
  = mkResponse (Some 1%Z) None /\
  req (snd (run (prompt 2) sets_result a_request empty_response 1)) = a_request.
Proof.
  apply (@no_continue_finalize _ _ (prompt 2) sets_result a_request a_request empty_response
            (mkResponse (Some 1%Z) None) 0).
  - reflexivity.
  - reflexivity.
  - lia.
Defined.

(** ** Absorbed errors *)

(** C6, as stated, fails: the promise does not always resolve, although
    [end] and the callbacks return normally.
    - [async (req, res) => { res.result = 1; await new Promise(() => {}); }]:
      the [await] of line 77 never resumes and the promise of the produced
      middleware stays pending at every turn.
    - [async (req, res, next) => { next(); }] with an engine that never calls
      the return handler: the async middleware resolves, [nextWasCalled] is
      set, and the wrapper stays at the [await] of line 80 at every turn. *)
Lemma pending_forever_counterexample :
  (end_returns (prompt 2) /\
   callbacks_return (prompt 2) /\
   ~ always_resolves (prompt 2) Edge.hangs a_request empty_response) /\
  (end_returns Edge.mute /\
   callbacks_return Edge.mute /\
   ~ always_resolves Edge.mute forgets_next a_request empty_response).
Proof.
  split.
  - split; [intros l v; reflexivity|].
    split; [intros l cb v; reflexivity|].
    intros [N H]. specialize (H N (le_n N)).
    assert (Hstall : forall n,
              fst (run (prompt 2) Edge.hangs a_request empty_response n)
              = Suspended Forever Resolve).
    { induction n as [|n IH]; [reflexivity|].
      rewrite run_S.
      destruct (run (prompt 2) Edge.hangs a_request empty_response n)
        as [ctl s].
      simpl in IH. subst ctl. reflexivity. }
    rewrite Hstall in H. discriminate H.
  - split; [intros l v; reflexivity|].
    split; [intros l cb v; reflexivity|].
    intros [N H]. specialize (H (S N) (le_S _ _ (le_n N))).
    assert (Hwait : forall n,
              run Edge.mute forgets_next a_request empty_response (S n)
              = run Edge.mute forgets_next a_request empty_response 1).
    { induction n as [|n IH]; [reflexivity|].
      rewrite run_S, IH. reflexivity. }
    rewrite Hwait in H. discriminate H.
Defined.

(** C6, amended.  When [end] and the supplied callbacks return normally, the
    promise of the produced middleware never rejects: whatever the async
    middleware throws is caught and passed, unchanged, to a completion
    channel (the captured callback if there is one when the [catch] block
    runs, [end] otherwise), which is the one call added to the trace, and
    the promise then resolves.  The promise resolves whenever the async
    middleware settles and the engine calls every return handler it is
    given. *)
Theorem never_rejects (Req Res : Type) (E : engine Res)
    (h : AsyncJsonrpcMiddleware Req Res) (rq : Req) (rs : Res) :
  end_returns E -> callbacks_return E ->
  (forall n reason, fst (run E h rq rs n) <> Finished (Rejected reason)) /\
  (forall n e s,
     run E h rq rs n = (HandlerSettled (Some e), s) ->
     run E h rq rs (S n)
     = (Finished Resolved,
        record (routed e (engine_turn s)) (engine_turn s)) /\
     completions (trace (snd (run E h rq rs (S n))))
     = [routed e (engine_turn s)]) /\
  (supplies E -> settles false h ->
   exists N, forall n, N <= n -> fst (run E h rq rs n) = Finished Resolved).
Proof.
  intros Hend Hcb.
  assert (Hall : forall n o, fst (run E h rq rs n) = Finished o -> o = Resolved).
  { intros n o Ho. pose proof (completed_run Hend Hcb h rq rs n) as H.
    unfold completed_once in H. rewrite Ho in H. apply H. }
  split; [|split].
  - intros n reason Ho. apply Hall in Ho. discriminate Ho.
  - intros n e s Hn.
    assert (HS : run E h rq rs (S n)
                 = (Finished Resolved,
                    record (routed e (engine_turn s)) (engine_turn s))).
    { rewrite run_S, Hn. unfold turn; simpl fst; simpl snd. simpl resume.
      apply (catch_branch_returns Hend Hcb). }
    split; [exact HS|]. rewrite HS. simpl.
    rewrite completions_snoc, routed_is_completion, engine_turn_completions.
    pose proof (silent_run E h rq rs n) as Hsil.
    unfold silent_until_finished in Hsil. rewrite Hn in Hsil; simpl in Hsil.
    rewrite Hsil. reflexivity.
  - intros Hsup Hset. destruct (call_finishes Hsup rq rs Hset) as [N HN].
    exists N. intros n Hle. destruct (HN n Hle) as [o Ho].
    rewrite Ho. f_equal. eapply Hall, Ho.
Qed.

Lemma never_rejects_witness :
  (run (prompt 5) throws_after_next a_request empty_response 2
   = (Finished Resolved,
      record (EndCalled (VError "x") empty_response)
             (engine_turn
                (snd (run (prompt 5) throws_after_next a_request
                        empty_response 1)))) /\
   completions
     (trace (snd (run (prompt 5) throws_after_next a_request
                    empty_response 2)))
   = [EndCalled (VError "x") empty_response]) /\
  exists N, forall n, N <= n ->
    fst (run (prompt 5) throws_after_next a_request empty_response n)
    = Finished Resolved.
Proof.
  destruct (@never_rejects _ _ (prompt 5) throws_after_next a_request
              empty_response (fun l v => eq_refl) (fun l cb v => eq_refl))
    as (_ & Habsorbed & Hresolves).
  split.
  - apply (Habsorbed 1 (VError "x")
             (snd (run (prompt 5) throws_after_next a_request
                     empty_response 1))).
    reflexivity.
  - apply Hresolves.
    + intros i. discriminate.
    + repeat constructor.
Defined.

(** Without the proviso the promise can reject: [end] throws in the [catch]
    branch. *)
Example rejects_when_end_throws :
  run rethrowing throws_x a_request empty_response 1
  = (Finished (Rejected (VError "x")),
     record (EndCalled (VError "x") empty_response)
            (initial a_request empty_response)).
Proof. reflexivity. Qed.

(** ** The scenarios of the specification *)

Example scenario_sets_result :
  run (prompt 2) sets_result a_request empty_response 1
  = (Finished Resolved,
     record (EndCalled VNull (mkResponse (Some 1%Z) None))
            (initial a_request (mkResponse (Some 1%Z) None))).
Proof. reflexivity. Qed.

Example scenario_awaits_next :
  let c := run (prompt 1) awaits_next a_request empty_response 3 in
  fst c = Finished Resolved /\
  trace (snd c)
  = [NextCalled; Registered 7;
     CallbackCalled 7 VNull (mkResponse (Some 2%Z) None)] /\
  res (snd c) = mkResponse (Some 2%Z) None.
Proof. repeat split. Qed.

Example scenario_throws_x :
  run (prompt 2) throws_x a_request empty_response 1
  = (Finished Resolved,
     record (EndCalled (VError "x") empty_response)
            (initial a_request empty_response)).
Proof. reflexivity. Qed.

Example scenario_forgets_next :
  trace (snd (run (prompt 3) forgets_next a_request empty_response 4))
  = [NextCalled; Registered 7; CallbackCalled 7 VNull empty_response].
Proof. reflexivity. Qed.

(** ** The continuation function *)

(** C5.  [asyncNext] first sets [nextWasCalled], then calls the engine's
    [next], once; the return handler it passes stores whatever callback the
    engine calls it with and resolves [nextPromise]; and an async middleware
    awaiting the promise of [asyncNext] stays suspended while [nextPromise]
    is unresolved and resumes only in a turn where it is resolved, at which
    point a callback the engine supplied is captured. *)
Theorem asyncNext_steps (Req Res : Type) (E : engine Res)
    (h : AsyncJsonrpcMiddleware Req Res) (rq : Req) (rs : Res)
    (n : nat) (k : AsyncJsonrpcMiddleware Req Res) (s : state Req Res) :
  run E h rq rs n = (Suspended OnNext k, s) ->
  (forall s0 : state Req Res,
     asyncNext E s0 = next E (set_nextWasCalled s0) /\
     nextWasCalled (set_nextWasCalled s0) = true /\
     next_count (trace (asyncNext E s0)) = S (next_count (trace s0))) /\
  (forall cb g (s0 : state Req Res),
     returnHandlerCallback (engine_invoke cb g s0) = Some cb /\
     nextPromise (engine_invoke cb g s0) = true) /\
  (nextPromise (engine_turn s) = false ->
   run E h rq rs (S n) = (Suspended OnNext k, engine_turn s)) /\
  (nextPromise (engine_turn s) = true ->
   run E h rq rs (S n) = sync E k (engine_turn s) /\
   exists cb, returnHandlerCallback (engine_turn s) = Some cb /\
              In (Registered cb) (trace (engine_turn s))).
Proof.
  intro Hn. repeat split.
  - apply asyncNext_next_count.
  - intro Hp. rewrite run_S, Hn. unfold turn; simpl. rewrite Hp. reflexivity.
  - rewrite run_S, Hn. unfold turn; simpl. rewrite H. reflexivity.
  - assert (Hsound : sound (engine_turn s)).
    { apply sound_engine_turn.
      pose proof (sound_run E h rq rs n) as H0. rewrite Hn in H0. exact H0. }
    destruct Hsound as (H1 & H2 & _). apply H1 in H.
    destruct (returnHandlerCallback (engine_turn s)) as [cb|];
      [eauto | exfalso; apply H; reflexivity].
Qed.

Lemma asyncNext_steps_witness :
  run (prompt 2) awaits_next a_request empty_response 1
  = (Suspended OnNext (SetRes (set_result 2) Resolve),
     engine_turn (snd (run (prompt 2) awaits_next a_request empty_response 0))).
Proof.
  apply (@asyncNext_steps _ _ (prompt 2) awaits_next a_request empty_response 0
            (SetRes (set_result 2) Resolve)
            (snd (run (prompt 2) awaits_next a_request empty_response 0))).
  - reflexivity.
  - reflexivity.
Defined.

(** C8.  [nextWasCalled] starts false; at every turn it is true exactly when
    [next] has been called, which only [asyncNext] does, after setting the
    flag as its first action; once true it stays true; and it stays false
    throughout a call whose async middleware never calls [next()]. *)
Theorem nextWasCalled_monotone (Req Res : Type) (E : engine Res)
    (h : AsyncJsonrpcMiddleware Req Res) (rq : Req) (rs : Res) :
  nextWasCalled (initial rq rs) = false /\
  (forall n,
     nextWasCalled (snd (run E h rq rs n))
     = negb (next_count (trace (snd (run E h rq rs n))) =? 0)) /\
  (forall s : state Req Res,
     asyncNext E s = next E (set_nextWasCalled s) /\
     nextWasCalled (asyncNext E s) = true) /\
  (forall n m, n <= m ->
     nextWasCalled (snd (run E h rq rs n)) = true ->
     nextWasCalled (snd (run E h rq rs m)) = true) /\
  (calls_next h 0 ->
   forall n, nextWasCalled (snd (run E h rq rs n)) = false).
Proof.
  assert (Hflag : forall n,
            nextWasCalled (snd (run E h rq rs n))
            = negb (next_count (trace (snd (run E h rq rs n))) =? 0)).
  { intro n. destruct (sound_run E h rq rs n) as (_ & _ & _ & H4 & H5).
    rewrite H4. exact H5. }
  repeat split.
  - exact Hflag.
  - apply asyncNext_flag.
  - intros n m Hle Hn. replace m with (n + (m - n)) by lia.
    rewrite run_add. apply next_called_turns, Hn.
  - intros Hh n. rewrite Hflag.
    destruct (calls_run E rq rs n Hh) as (left & _ & Hc).
    replace (next_count (trace (snd (run E h rq rs n)))) with 0 by lia.
    reflexivity.
Qed.

Lemma nextWasCalled_monotone_witness :
  nextWasCalled (initial a_request empty_response) = false /\
  nextWasCalled
    (snd (run (prompt 2) awaits_next a_request empty_response 0)) = true /\
  nextWasCalled
    (snd (run (prompt 2) awaits_next a_request empty_response 6)) = true.
Proof.
  destruct (@nextWasCalled_monotone _ _ (prompt 2) awaits_next a_request
              empty_response) as (Hstart & Hiff & _ & Hstays & _).
  split; [exact Hstart|].
  assert (Hset : nextWasCalled
                   (snd (run (prompt 2) awaits_next a_request
                           empty_response 0)) = true).
  { rewrite (Hiff 0). reflexivity. }
  split; [exact Hset|].
  apply (Hstays 0 6); [lia | exact Hset].
Defined.



(** ** The request *)

(** C7.  The wrapper and its continuation function neither write nor read
    the request.  Whatever property of the request the async middleware's
    own writes keep holds of the request at every turn of the call, so a
    request the async middleware does not write is the caller's throughout;
    the async middleware is handed the caller's request as it is; and the
    call of an async middleware that does not look at the request goes the
    same way, in everything but the request, whatever the request is. *)
Theorem request_passed_through (Req Res : Type) (E : engine Res)
    (h : AsyncJsonrpcMiddleware Req Res) (rq : Req) (rs : Res) :
  (forall Q : Req -> Prop,
     req_writes_keep Q h -> Q rq ->
     forall n, Q (req (snd (run E h rq rs n)))) /\
  (forall k : Req -> Res -> AsyncJsonrpcMiddleware Req Res,
     createAsyncMiddleware E (Inspect k) rq rs
     = createAsyncMiddleware E (k rq rs) rq rs) /\
  (req_blind h ->
   forall rq' n, but_req (run E h rq rs n) = but_req (run E h rq' rs n)).
Proof.
  repeat split.
  - intros Q Hh Hq n. apply (req_run E rq rs n Hh Hq).
  - intros Hh rq' n. apply hidden_but_req, hidden_run, Hh.
Qed.

Lemma request_passed_through_witness :
  req (snd (run (prompt 2) awaits_next a_request empty_response 4))
  = a_request.
Proof.
  apply (proj1 (@request_passed_through _ _ (prompt 2) awaits_next a_request
                  empty_response) (fun r => r = a_request)).
  - repeat constructor.
  - reflexivity.
Defined.

(** * Further facts *)

Section EdgeFacts.

Variables Req Res : Type.
Variable E : engine Res.

Local Abbreviation state := (state Req Res).
Local Abbreviation config := (config Req Res).
Local Abbreviation handler := (AsyncJsonrpcMiddleware Req Res).

Ltac st :=
  unfold asyncNext, next, engine_invoke, returnHandler, record, write_res,
    write_req, set_returnHandlers, set_nextWasCalled, count_next in *;
  simpl in *.

(** ** The callback supplied last *)

Lemma last_registered_snoc (l : list (event Res)) e :
  last_registered (l ++ [e]) =
  match e with
  | Registered cb => Some cb
  | _ => last_registered l
  end.
Proof.
  induction l as [|a l IH]; simpl.
  - destruct e; reflexivity.
  - rewrite IH. destruct e; try reflexivity.
Qed.

Lemma called_latest_nil : called_latest (@nil (event Res)).
Proof. intros [|] ? ? ? ? H; discriminate H. Qed.

Lemma called_latest_other (l : list (event Res)) e :
  (forall cb v r, e <> CallbackCalled cb v r) ->
  called_latest l -> called_latest (l ++ [e]).
Proof.
  intros He Hl before cb v r after H.
  apply snoc_split in H. destruct H as [(_ & _ & H) | (after' & _ & H)].
  - exfalso. exact (He _ _ _ H).
  - exact (Hl _ _ _ _ _ H).
Qed.

Lemma called_latest_callback (l : list (event Res)) cb v r :
  last_registered l = Some cb ->
  called_latest l -> called_latest (l ++ [CallbackCalled cb v r]).
Proof.
  intros Hlast Hl before cb' v' r' after H.
  apply snoc_split in H. destruct H as [(_ & H1 & H2) | (after' & _ & H)].
  - inversion H2; subst. exact Hlast.
  - exact (Hl _ _ _ _ _ H).
Qed.

Lemma latest_invoke cb g (s : state) : latest s -> latest (engine_invoke cb g s).
Proof.
  intros [H1 H2]. unfold latest. st. split.
  - rewrite last_registered_snoc. reflexivity.
  - apply called_latest_other; [discriminate | exact H2].
Qed.

Lemma latest_asyncNext (s : state) : latest s -> latest (asyncNext E s).
Proof.
  intros [H1 H2].
  assert (Hrec : latest (count_next (record NextCalled (set_nextWasCalled s)))).
  { unfold latest. st. split.
    - rewrite last_registered_snoc. exact H1.
    - apply called_latest_other; [discriminate | exact H2]. }
  unfold asyncNext, next.
  change (nextCalls (set_nextWasCalled s)) with (nextCalls s).
  destruct (supply E (nextCalls s)) as [[[[|d] cb] g]|].
  - apply latest_invoke, Hrec.
  - exact Hrec.
  - exact Hrec.
Qed.

Lemma latest_run (h : handler) rq rs n : latest (snd (run E h rq rs n)).
Proof.
  apply run_closed; auto using latest_asyncNext.
  - apply engine_turn_closed; auto using latest_invoke.
  - intros v s [H1 H2]. unfold latest. st. split.
    + rewrite last_registered_snoc. exact H1.
    + apply called_latest_other; [discriminate | exact H2].
  - intros cb v s Hcb [H1 H2]. unfold latest. st. split.
    + rewrite last_registered_snoc. exact H1.
    + apply called_latest_callback; [congruence | exact H2].
  - split; [reflexivity | apply called_latest_nil].
Qed.

(** ** Completion calls, whatever the channels do *)

Lemma catch_branch_completions v (s : state) :
  completions (trace (snd (catch_branch E v s))) =
  completions (trace s) ++ [routed v s].
Proof.
  rewrite catch_branch_state. simpl.
  rewrite completions_snoc, routed_is_completion. reflexivity.
Qed.

Lemma catch_branch_outcome v (s : state) :
  fst (catch_branch E v s) =
  Finished (match routed_throws E v s with
            | None => Resolved
            | Some e => Rejected e
            end).
Proof.
  unfold catch_branch, routed_throws, settle, call_callback, call_end.
  destruct (returnHandlerCallback s) as [cb|]; simpl;
    [destruct (callback_throws E (trace s) cb v)
    |destruct (end_throws E (trace s) v)]; reflexivity.
Qed.

Lemma in_try_completions (s : state) e (thrown : option value) :
  is_completion e = true ->
  completions (trace s) = [] ->
  1 <= List.length
         (completions (trace (snd (in_try E (record e s, thrown))))) <= 2.
Proof.
  intros He Hs.
  assert (H1 : completions (trace (record e s)) = [e]).
  { unfold record; simpl. rewrite completions_snoc, He, Hs. reflexivity. }
  unfold in_try. destruct thrown as [v|]; simpl fst; simpl snd.
  - rewrite catch_branch_completions, H1. simpl. lia.
  - rewrite H1. simpl. lia.
Qed.

Lemma once_or_twice_turn (c : config) :
  completed_once_or_twice c -> completed_once_or_twice (turn E c).
Proof.
  destruct c as [ctl s]. unfold turn. simpl fst; simpl snd. intro H.
  assert (Hs : forall h, completions (trace s) = [] ->
                 completed_once_or_twice (sync E h (engine_turn s))).
  { intros h H0. unfold completed_once_or_twice.
    rewrite sync_completions, engine_turn_completions.
    pose proof (sync_in_handler E h (engine_turn s)) as Hin.
    destruct (fst (sync E h (engine_turn s))); simpl in Hin; tauto. }
  assert (Hc : forall v, completions (trace s) = [] ->
                 completed_once_or_twice (catch_branch E v (engine_turn s))).
  { intros v H0. unfold completed_once_or_twice.
    rewrite catch_branch_outcome, catch_branch_completions.
    rewrite engine_turn_completions, H0. simpl. lia. }
  assert (Ht : forall e thrown, is_completion e = true ->
                 completions (trace s) = [] ->
                 completed_once_or_twice
                   (in_try E (record e (engine_turn s), thrown))).
  { intros e thrown He H0. unfold completed_once_or_twice.
    destruct (in_try_finished E (record e (engine_turn s), thrown)) as [o ->].
    apply in_try_completions; [exact He|].
    rewrite engine_turn_completions. exact H0. }
  unfold completed_once_or_twice in H. simpl in H.
  destruct ctl as [[| |] k | [e|] | | o]; simpl resume.
  - apply Hs, H.
  - destruct (nextPromise (engine_turn s)); [apply Hs, H|].
    unfold completed_once_or_twice; simpl.
    rewrite engine_turn_completions. exact H.
  - unfold completed_once_or_twice; simpl.
    rewrite engine_turn_completions. exact H.
  - apply Hc, H.
  - unfold after_handler. destruct (nextWasCalled (engine_turn s)).
    + unfold completed_once_or_twice; simpl.
      rewrite engine_turn_completions. exact H.
    + apply Ht; [reflexivity | exact H].
  - destruct (nextPromise (engine_turn s)).
    + unfold after_nextPromise.
      destruct (returnHandlerCallback (engine_turn s)) as [cb|].
      * apply Ht; [reflexivity | exact H].
      * apply Hc, H.
    + unfold completed_once_or_twice; simpl.
      rewrite engine_turn_completions. exact H.
  - unfold completed_once_or_twice; simpl.
    rewrite engine_turn_completions. exact H.
Qed.

Lemma once_or_twice_run (h : handler) rq rs n :
  completed_once_or_twice (run E h rq rs n).
Proof.
  induction n as [|n IH].
  - unfold run, createAsyncMiddleware, completed_once_or_twice. simpl turns.
    pose proof (sync_in_handler E h (initial rq rs)) as Hin.
    pose proof (sync_completions E h (initial rq rs)) as Hc.
    destruct (fst (sync E h (initial rq rs))); simpl in Hin; tauto.
  - rewrite run_S. apply once_or_twice_turn, IH.
Qed.

Lemma engine_turns_next_count n : forall s : state,
  next_count (trace (engine_turns n s)) = next_count (trace s).
Proof.
  induction n as [|n IH]; intro s; simpl; [reflexivity|].
  rewrite IH. apply engine_turn_next_count.
Qed.

(** ** Once captured, always captured *)

Lemma captured_turns n : forall c : config,
  returnHandlerCallback (snd c) <> None ->
  returnHandlerCallback (snd (turns E n c)) <> None.
Proof.
  apply (@turns_closed _ _ E
           (fun s : state => returnHandlerCallback s <> None));
    auto.
  - intros s H. unfold asyncNext, next.
    destruct (supply E _) as [[[[|d] cb] g]|]; st; auto; discriminate.
  - apply engine_turn_closed; auto. intros cb g s _. st. discriminate.
Qed.

(** ** An engine that never calls a return handler *)

Lemma unsupplied_run (h : handler) rq rs n :
  never_supplies E ->
  let s := snd (run E h rq rs n) in
  returnHandlerCallback s = None /\ nextPromise s = false /\
  returnHandlers s = [].
Proof.
  intros Hnever s. unfold s.
  apply (@run_closed _ _ E
           (fun s : state => returnHandlerCallback s = None /\
                             nextPromise s = false /\ returnHandlers s = []));
    auto.
  - intros s0 H. unfold asyncNext, next. rewrite Hnever. exact H.
  - intros s0 (H1 & H2 & H3). rewrite (engine_turn_idle s0 H3). auto.
Qed.

(** ** The response *)

Section ResponseFrame.

Variable Q : Res -> Prop.
Hypothesis E_keeps : downstream_keeps E Q.

Local Abbreviation res_ok s := (res_kept Q (@Finished Req Res Resolved, s)).
Local Abbreviation keeps p := (forall rs : Res, Q rs -> Q (snd p rs)).

Lemma res_ok_invoke cb g (s : state) :
  (forall rs, Q rs -> Q (g rs)) -> res_ok s -> res_ok (engine_invoke cb g s).
Proof.
  intros Hg (H1 & H2 & H3 & _). unfold res_kept. st.
  repeat split; auto.
  apply Forall_app. split; [exact H3|]. repeat constructor.
Qed.

Lemma res_ok_asyncNext (s : state) : res_ok s -> res_ok (asyncNext E s).
Proof.
  intros (H1 & H2 & H3 & _).
  assert (Hrec : res_ok (count_next (record NextCalled (set_nextWasCalled s)))).
  { unfold res_kept. st. repeat split; auto.
    apply Forall_app. split; [exact H3|]. repeat constructor. }
  unfold asyncNext, next.
  change (nextCalls (set_nextWasCalled s)) with (nextCalls s).
  destruct (supply E (nextCalls s)) as [[[[|d] cb] g]|] eqn:Hsup.
  - apply res_ok_invoke; [|exact Hrec]. exact (E_keeps _ Hsup).
  - destruct Hrec as (R1 & R2 & R3 & _). unfold res_kept. st.
    repeat split; auto.
    apply Forall_app. split; [exact R2|]. constructor; [|constructor].
    exact (E_keeps _ Hsup).
  - exact Hrec.
Qed.

Lemma res_ok_call_due (l : list (pending Res)) : forall s : state,
  Forall (fun p : pending Res => keeps p) l -> res_ok s ->
  res_ok (fst (call_due l s)) /\
  Forall (fun p : pending Res => keeps p) (snd (call_due l s)).
Proof.
  induction l as [|[[[|d] cb] g] l IH]; intros s Hl Hs; simpl.
  - auto.
  - inversion Hl; subst. apply IH; [assumption|].
    apply res_ok_invoke; assumption.
  - inversion Hl; subst. destruct (IH s) as [I1 I2]; try assumption.
    destruct (call_due l s); simpl in *. split; [exact I1|].
    constructor; assumption.
Qed.

Lemma res_ok_engine_turn (s : state) : res_ok s -> res_ok (engine_turn s).
Proof.
  intros Hs. pose proof Hs as (_ & H2 & _).
  destruct (@res_ok_call_due (returnHandlers s) s H2 Hs) as [I1 I2].
  unfold engine_turn. destruct (call_due (returnHandlers s) s) as [s' kept].
  simpl in *. destruct I1 as (R1 & R2 & R3 & _). unfold res_kept. st.
  repeat split; auto.
Qed.

Lemma res_ok_end v (s : state) :
  res_ok s -> res_ok (record (EndCalled v (res s)) s).
Proof.
  intros (H1 & H2 & H3 & _). unfold res_kept. st. repeat split; auto.
  apply Forall_app. split; [exact H3|]. repeat constructor. exact H1.
Qed.

Lemma res_ok_callback cb v (s : state) :
  res_ok s -> res_ok (record (CallbackCalled cb v (res s)) s).
Proof.
  intros (H1 & H2 & H3 & _). unfold res_kept. st. repeat split; auto.
  apply Forall_app. split; [exact H3|]. repeat constructor. exact H1.
Qed.

Lemma sync_res (h : handler) :
  res_writes_keep Q h ->
  forall s, res_ok s -> res_kept Q (sync E h s).
Proof.
  induction 1 as [| e | f k Hf _ IH | g k _ IH | k _ IH | k _ IH
                 | k Hk _ | k Hk _ |]; intros s Hs; simpl.
  - exact Hs.
  - exact Hs.
  - apply IH. destruct Hs as (H1 & H2 & H3 & _). unfold res_kept. st.
    repeat split; auto.
  - apply IH. exact Hs.
  - apply IH; [apply Hs | exact Hs].
  - apply IH, res_ok_asyncNext, Hs.
  - destruct Hs as (H1 & H2 & H3 & _). unfold res_kept. simpl. auto.
  - destruct Hs as (H1 & H2 & H3 & _). unfold res_kept. simpl. auto.
  - destruct Hs as (H1 & H2 & H3 & _). unfold res_kept. simpl.
    repeat split; auto. constructor.
Qed.

Lemma res_turn (c : config) : res_kept Q c -> res_kept Q (turn E c).
Proof.
  destruct c as [ctl s]. intros (H1 & H2 & H3 & Hk). simpl in H1, H2, H3, Hk.
  assert (Hs : res_ok (engine_turn s)).
  { apply res_ok_engine_turn. unfold res_kept. simpl. auto. }
  unfold turn. simpl fst; simpl snd.
  assert (Hw : ~ in_handler ctl \/ (exists r, ctl = HandlerSettled r) ->
               res_kept Q (resume E (ctl, engine_turn s))).
  { intro Hctl. destruct (wrapper_req E (engine_turn s) Hctl) as [_ Hout].
    assert (Hres : res_ok (snd (resume E (ctl, engine_turn s)))).
    { destruct ctl as [w k | [e|] | | o]; simpl resume.
      - exfalso. destruct Hctl as [H | [r H]];
          [apply H; exact I | discriminate H].
      - apply (@catch_branch_closed _ _ E (fun s0 => res_ok s0));
          auto using res_ok_end, res_ok_callback.
      - apply (@after_handler_closed _ _ E (fun s0 => res_ok s0));
          auto using res_ok_end, res_ok_callback.
      - destruct (nextPromise (engine_turn s)); [|exact Hs].
        apply (@after_nextPromise_closed _ _ E (fun s0 => res_ok s0));
          auto using res_ok_end, res_ok_callback.
      - exact Hs. }
    destruct Hres as (R1 & R2 & R3 & _). unfold res_kept.
    repeat split; auto.
    destruct (fst (resume E (ctl, engine_turn s))); simpl in Hout; tauto. }
  destruct ctl as [[| |] k | r | | o].
  - simpl. apply sync_res; auto.
  - simpl. destruct (nextPromise (engine_turn s)).
    + apply sync_res; auto.
    + destruct Hs as (R1 & R2 & R3 & _). unfold res_kept. simpl. auto.
  - destruct Hs as (R1 & R2 & R3 & _). unfold res_kept. simpl. auto.
  - apply Hw. right. eauto.
  - apply Hw. left. simpl. tauto.
  - apply Hw. left. simpl. tauto.
Qed.

Lemma res_run (h : handler) rq rs n :
  res_writes_keep Q h -> Q rs -> res_kept Q (run E h rq rs n).
Proof.
  intros Hh Hq. induction n as [|n IH].
  - apply (sync_res Hh (s := initial rq rs)).
    unfold res_kept. simpl. auto.
  - rewrite run_S. apply res_turn, IH.
Qed.

End ResponseFrame.

(** ** The wrapper finishes after the async middleware *)

Lemma finished_after_settled (h : handler) rq rs n :
  ~ in_handler (fst (run E h rq rs n)) ->
  exists m r, m < n /\ fst (run E h rq rs m) = HandlerSettled r.
Proof.
  induction n as [|n IH]; intro Hout.
  - exfalso. apply Hout. apply (sync_in_handler E h (initial rq rs)).
  - destruct (fst (run E h rq rs n)) as [w k | r | | o] eqn:Hctl.
    + exfalso. apply Hout. rewrite run_S. unfold turn. rewrite Hctl.
      destruct w; simpl.
      * apply sync_in_handler.
      * destruct (nextPromise _); [apply sync_in_handler | exact I].
      * exact I.
    + exists n, r. split; [lia | exact Hctl].
    + destruct IH as (m & r & Hm & Hr); [simpl; tauto|].
      exists m, r. split; [lia | exact Hr].
    + destruct IH as (m & r & Hm & Hr); [simpl; tauto|].
      exists m, r. split; [lia | exact Hr].
Qed.

Lemma stalled_turns n : forall k (s : state),
  exists s', turns E n (Suspended Forever k, s) = (Suspended Forever k, s').
Proof.
  induction n as [|n IH]; intros k s; simpl; [eauto|].
  unfold turn; simpl. apply IH.
Qed.

(** ** A call in which [next] is not called *)

Lemma only_end_run (h : handler) rq rs n :
  let s := snd (run E h rq rs n) in
  nextCalls s = 0 ->
  Forall (fun e => is_end e = true) (trace s) /\
  returnHandlerCallback s = None /\ returnHandlers s = [].
Proof.
  intro s. unfold s.
  apply (@run_closed _ _ E
           (fun s : state =>
              nextCalls s = 0 ->
              Forall (fun e => is_end e = true) (trace s) /\
              returnHandlerCallback s = None /\ returnHandlers s = [])).
  - intros f s0 Hs. exact Hs.
  - intros g s0 Hs. exact Hs.
  - intros s0 _ H. rewrite asyncNext_nextCalls in H. discriminate H.
  - intros s0 Hs H. rewrite engine_turn_nextCalls in H.
    destruct (Hs H) as (H1 & H2 & H3). rewrite (engine_turn_idle s0 H3). auto.
  - intros v s0 Hs H. destruct (Hs H) as (H1 & H2 & H3). st.
    repeat split; auto. apply Forall_app. split; [exact H1|].
    repeat constructor.
  - intros cb v s0 Hcb Hs H. destruct (Hs H) as (_ & H2 & _). congruence.
  - intros _. simpl. auto.
Qed.

End EdgeFacts.

(** * Further properties of the adapter *)

Import Edge.

(** ** The callback that is called *)

(** X1.  Line 70 overwrites: at every turn [returnHandlerCallback] is the
    callback the engine supplied last, and every call the wrapper makes of a
    supplied callback is a call of the one supplied last before that call.
    When the engine supplies two, an earlier one is never called after a
    later one was supplied. *)
Theorem latest_callback_called (Req Res : Type) (E : engine Res)
    (h : AsyncJsonrpcMiddleware Req Res) (rq : Req) (rs : Res) (n : nat) :
  returnHandlerCallback (snd (run E h rq rs n))
  = last_registered (trace (snd (run E h rq rs n))) /\
  forall before cb error seen after,
    trace (snd (run E h rq rs n))
    = before ++ CallbackCalled cb error seen :: after ->
    last_registered before = Some cb.
Proof. exact (latest_run E h rq rs n). Qed.

(** Two calls of [next()], two callbacks supplied, 8 then 7: the wrapper
    calls 7 and never calls 8. *)
Example second_registration_wins :
  trace (snd (run twice calls_next_twice a_request empty_response 2))
  = [NextCalled; NextCalled; Registered 8; Registered 7;
     CallbackCalled 7 VNull (mkResponse (Some 5%Z) None)].
Proof. reflexivity. Qed.

(** ** Completion calls that throw *)

(** X2.  When [next()] was not called and [end(null)] (line 83) throws, the
    [catch] block calls [end] a second time, with what the first call threw
    (line 89); the promise of the produced middleware resolves if that
    second call returns and rejects with what it throws otherwise. *)
Theorem end_throw_redelivered (Req Res : Type) (E : engine Res)
    (h : AsyncJsonrpcMiddleware Req Res) (rq : Req) (rs : Res)
    (n : nat) (s : state Req Res) (e : value) :
  run E h rq rs n = (HandlerSettled None, s) ->
  nextWasCalled s = false ->
  end_throws E (trace s) VNull = Some e ->
  trace (snd (run E h rq rs (S n)))
  = trace s ++ [EndCalled VNull (res s); EndCalled e (res s)] /\
  fst (run E h rq rs (S n))
  = Finished
      match end_throws E (trace s ++ [EndCalled VNull (res s)]) e with
      | None => Resolved
      | Some e' => Rejected e'
      end.
Proof.
  intros Hn Hflag Hthrow.
  pose proof (unrequested_idle E h rq rs n) as Hidle.
  rewrite Hn in Hidle; simpl in Hidle.
  destruct (Hidle Hflag) as [Hturn Hcb].
  rewrite run_S, Hn. unfold turn; simpl fst; simpl snd. rewrite Hturn.
  simpl resume. unfold after_handler, in_try, call_end. rewrite Hflag.
  simpl snd. rewrite Hthrow. simpl fst.
  unfold catch_branch, settle, call_end.
  change (returnHandlerCallback (record (EndCalled VNull (res s)) s))
    with (returnHandlerCallback s).
  rewrite Hcb. simpl.
  destruct (end_throws E (trace s ++ [EndCalled VNull (res s)]) e); simpl;
    rewrite <- app_assoc; auto.
Qed.

Lemma end_throw_redelivered_witness :
  trace (snd (run picky sets_result a_request empty_response 1))
  = [] ++ [EndCalled VNull (mkResponse (Some 1%Z) None);
           EndCalled (VError "end") (mkResponse (Some 1%Z) None)].
Proof.
  apply (@end_throw_redelivered _ _ picky sets_result a_request empty_response
            0 (snd (run picky sets_result a_request empty_response 0))
            (VError "end")); reflexivity.
Defined.

(** X3.  When the captured callback throws on [null] (line 81), the [catch]
    block calls the same callback a second time, with what it threw
    (line 87); [end] is not called.  The promise resolves if the second call
    returns and rejects with what it throws otherwise. *)
Theorem callback_throw_redelivered (Req Res : Type) (E : engine Res)
    (h : AsyncJsonrpcMiddleware Req Res) (rq : Req) (rs : Res)
    (n : nat) (s : state Req Res) (cb : callback) (e : value) :
  run E h rq rs n = (AwaitNextPromise, s) ->
  let s' := engine_turn s in
  returnHandlerCallback s' = Some cb ->
  callback_throws E (trace s') cb VNull = Some e ->
  trace (snd (run E h rq rs (S n)))
  = trace s' ++ [CallbackCalled cb VNull (res s');
                 CallbackCalled cb e (res s')] /\
  fst (run E h rq rs (S n))
  = Finished
      match callback_throws E
              (trace s' ++ [CallbackCalled cb VNull (res s')]) cb e with
      | None => Resolved
      | Some e' => Rejected e'
      end.
Proof.
  intros Hn s' Hcb Hthrow.
  assert (Hp : nextPromise s' = true).
  { assert (Hsound : sound s').
    { apply sound_engine_turn. pose proof (sound_run E h rq rs n) as H0.
      rewrite Hn in H0. exact H0. }
    destruct Hsound as [Hiff _]. apply Hiff. congruence. }
  rewrite run_S, Hn. unfold turn; simpl fst; simpl snd. fold s'.
  simpl resume. rewrite Hp.
  unfold after_nextPromise, in_try, call_callback. rewrite Hcb.
  simpl snd. rewrite Hthrow. simpl fst.
  unfold catch_branch, settle, call_callback.
  change (returnHandlerCallback (record (CallbackCalled cb VNull (res s')) s'))
    with (returnHandlerCallback s').
  rewrite Hcb. simpl.
  destruct (callback_throws E
              (trace s' ++ [CallbackCalled cb VNull (res s')]) cb e); simpl;
    rewrite <- app_assoc; auto.
Qed.

Lemma callback_throw_redelivered_witness :
  fst (run picky forgets_next a_request empty_response 2) = Finished Resolved.
Proof.
  apply (@callback_throw_redelivered _ _ picky forgets_next a_request
            empty_response 1
            (snd (run picky forgets_next a_request empty_response 1))
            7 (VError "callback")); reflexivity.
Defined.

(** X4.  A completion call made in the [catch] block (line 87 or 89) is not
    guarded: when it throws, the promise of the produced middleware rejects
    with what it threw, the call is not repeated, and nothing changes
    afterwards. *)
Theorem catch_throw_rejects (Req Res : Type) (E : engine Res)
    (h : AsyncJsonrpcMiddleware Req Res) (rq : Req) (rs : Res)
    (n : nat) (s : state Req Res) (e e' : value) :
  run E h rq rs n = (HandlerSettled (Some e), s) ->
  routed_throws E e (engine_turn s) = Some e' ->
  forall m, n < m ->
    fst (run E h rq rs m) = Finished (Rejected e') /\
    completions (trace (snd (run E h rq rs m))) = [routed e (engine_turn s)].
Proof.
  intros Hn Hthrow m Hlt.
  assert (HS : run E h rq rs (S n)
               = (Finished (Rejected e'),
                  record (routed e (engine_turn s)) (engine_turn s))).
  { rewrite run_S, Hn. unfold turn; simpl fst; simpl snd. simpl resume.
    rewrite (surjective_pairing (catch_branch E e (engine_turn s))).
    rewrite catch_branch_outcome, catch_branch_state, Hthrow. reflexivity. }
  replace m with (S n + (m - S n)) by lia.
  rewrite run_add, HS, turns_finished. simpl fst; simpl snd.
  split; [reflexivity|].
  rewrite engine_turns_completions. simpl.
  rewrite completions_snoc, routed_is_completion, engine_turn_completions.
  pose proof (silent_run E h rq rs n) as Hsil.
  unfold silent_until_finished in Hsil. rewrite Hn in Hsil; simpl in Hsil.
  rewrite Hsil. reflexivity.
Qed.

Lemma catch_throw_rejects_witness :
  fst (run rethrowing throws_x a_request empty_response 3)
  = Finished (Rejected (VError "x")) /\
  completions (trace (snd (run rethrowing throws_x a_request empty_response 3)))
  = [EndCalled (VError "x") empty_response].
Proof.
  apply (@catch_throw_rejects _ _ rethrowing throws_x a_request empty_response
            0 (snd (run rethrowing throws_x a_request empty_response 0))
            (VError "x") (VError "x")).
  - reflexivity.
  - reflexivity.
  - lia.
Defined.

(** X5.  Whatever [end] and the supplied callbacks do, a call of the
    produced middleware makes no completion call before its promise settles
    and has made one or two when it has settled: never none, never more than
    two. *)
Theorem at_most_two_completions (Req Res : Type) (E : engine Res)
    (h : AsyncJsonrpcMiddleware Req Res) (rq : Req) (rs : Res) (n : nat) :
  match fst (run E h rq rs n) with
  | Finished _ =>
      1 <= List.length (completions (trace (snd (run E h rq rs n)))) <= 2
  | _ => completions (trace (snd (run E h rq rs n))) = []
  end.
Proof. exact (once_or_twice_run E h rq rs n). Qed.

(** X6.  Once its promise has settled the produced middleware makes no
    further completion call and its outcome stays, whatever the engine does
    later: a callback the engine supplies after the end is stored and never
    called. *)
Theorem finished_is_final (Req Res : Type) (E : engine Res)
    (h : AsyncJsonrpcMiddleware Req Res) (rq : Req) (rs : Res)
    (n : nat) (o : outcome) :
  fst (run E h rq rs n) = Finished o ->
  forall m, n <= m ->
    fst (run E h rq rs m) = Finished o /\
    completions (trace (snd (run E h rq rs m)))
    = completions (trace (snd (run E h rq rs n))).
Proof.
  intros Hn m Hle. replace m with (n + (m - n)) by lia.
  rewrite run_add.
  destruct (run E h rq rs n) as [ctl s]. simpl in Hn. subst ctl.
  rewrite turns_finished. simpl.
  rewrite engine_turns_completions. auto.
Qed.

Lemma finished_is_final_witness :
  fst (run (prompt 5) throws_undefined_early a_request empty_response 9)
  = Finished Resolved /\
  completions
    (trace (snd (run (prompt 5) throws_undefined_early a_request
                   empty_response 9)))
  = completions
      (trace (snd (run (prompt 5) throws_undefined_early a_request
                     empty_response 1))).
Proof.
  apply (@finished_is_final _ _ (prompt 5) throws_undefined_early a_request
            empty_response 1 Resolved).
  - reflexivity.
  - lia.
Defined.

(** The callback supplied after the end is in the trace and is not called. *)
Example late_callback_not_called :
  trace (snd (run (prompt 5) throws_undefined_early a_request
                empty_response 9))
  = [NextCalled; EndCalled VUndefined empty_response; Registered 7].
Proof. reflexivity. Qed.

(** ** The captured callback *)

(** X7.  [returnHandlerCallback] is never set back to [null]: once a
    callback is captured, one is captured at every later turn, and
    [nextPromise] is resolved. *)
Theorem capture_is_permanent (Req Res : Type) (E : engine Res)
    (h : AsyncJsonrpcMiddleware Req Res) (rq : Req) (rs : Res) (n m : nat) :
  n <= m ->
  returnHandlerCallback (snd (run E h rq rs n)) <> None ->
  returnHandlerCallback (snd (run E h rq rs m)) <> None /\
  nextPromise (snd (run E h rq rs m)) = true.
Proof.
  intros Hle Hn.
  assert (Hm : returnHandlerCallback (snd (run E h rq rs m)) <> None).
  { replace m with (n + (m - n)) by lia. rewrite run_add.
    apply captured_turns, Hn. }
  split; [exact Hm|].
  destruct (sound_run E h rq rs m) as [Hiff _]. apply Hiff, Hm.
Qed.

Lemma capture_is_permanent_witness :
  returnHandlerCallback
    (snd (run (prompt 1) awaits_next a_request empty_response 6)) <> None /\
  nextPromise (snd (run (prompt 1) awaits_next a_request empty_response 6))
  = true.
Proof.
  apply (@capture_is_permanent _ _ (prompt 1) awaits_next a_request
            empty_response 1 6).
  - lia.
  - discriminate.
Defined.

(** ** Calls that do not finish *)

(** X8.  With an engine that never calls a return handler, a call whose
    async middleware called [next()] and resolved stays at line 80 for ever
    and makes no completion call; and whatever the async middleware throws
    goes to [end], also after [next()] was called. *)
Theorem unsupplied_call_stays_pending (Req Res : Type) (E : engine Res)
    (h : AsyncJsonrpcMiddleware Req Res) (rq : Req) (rs : Res) :
  never_supplies E ->
  (forall n s,
     run E h rq rs n = (HandlerSettled None, s) ->
     nextWasCalled s = true ->
     forall m, n < m ->
       run E h rq rs m = (AwaitNextPromise, s) /\
       completions (trace s) = []) /\
  (forall n e s,
     run E h rq rs n = (HandlerSettled (Some e), s) ->
     trace (snd (run E h rq rs (S n))) = trace s ++ [EndCalled e (res s)]).
Proof.
  intro Hnever. split.
  - intros n s Hn Hflag.
    pose proof (unsupplied_run h rq rs n Hnever) as Hs.
    rewrite Hn in Hs; simpl in Hs. destruct Hs as (Hcb & Hp & Hl).
    assert (Hsil : completions (trace s) = []).
    { pose proof (silent_run E h rq rs n) as H0.
      unfold silent_until_finished in H0. rewrite Hn in H0. exact H0. }
    assert (Hstay : forall k, run E h rq rs (S n + k) = (AwaitNextPromise, s)).
    { induction k as [|k IH].
      - rewrite Nat.add_0_r, run_S, Hn. unfold turn; simpl fst; simpl snd.
        rewrite (engine_turn_idle s Hl). simpl. unfold after_handler.
        rewrite Hflag. reflexivity.
      - rewrite Nat.add_succ_r, run_S, IH. unfold turn; simpl fst; simpl snd.
        rewrite (engine_turn_idle s Hl). simpl. rewrite Hp. reflexivity. }
    intros m Hlt. replace m with (S n + (m - S n)) by lia. auto.
  - intros n e s Hn.
    pose proof (unsupplied_run h rq rs n Hnever) as Hs.
    rewrite Hn in Hs; simpl in Hs. destruct Hs as (Hcb & Hp & Hl).
    rewrite run_S, Hn. unfold turn; simpl fst; simpl snd.
    rewrite (engine_turn_idle s Hl). simpl resume.
    rewrite catch_branch_state. unfold routed. rewrite Hcb. reflexivity.
Qed.

Lemma unsupplied_call_stays_pending_witness :
  run mute forgets_next a_request empty_response 9
  = (AwaitNextPromise,
     snd (run mute forgets_next a_request empty_response 0)) /\
  completions
    (trace (snd (run mute forgets_next a_request empty_response 0))) = [].
Proof.
  apply (proj1 (@unsupplied_call_stays_pending _ _ mute forgets_next a_request
                  empty_response (fun i => eq_refl)) 0).
  - reflexivity.
  - reflexivity.
  - lia.
Defined.

(** X9.  The wrapper makes its completion call only after the promise of
    the async middleware has settled: a finished call has an earlier turn at
    which the async middleware had just settled.  So an async middleware
    that never settles keeps the call pending for ever, with no completion
    call: the adapter has no timeout. *)
Theorem completes_after_handler (Req Res : Type) (E : engine Res)
    (h : AsyncJsonrpcMiddleware Req Res) (rq : Req) (rs : Res) :
  (forall n o,
     fst (run E h rq rs n) = Finished o ->
     exists m r, m < n /\ fst (run E h rq rs m) = HandlerSettled r) /\
  (forall n k s,
     run E h rq rs n = (Suspended Forever k, s) ->
     forall m, n <= m ->
       fst (run E h rq rs m) = Suspended Forever k /\
       completions (trace (snd (run E h rq rs m))) = []).
Proof.
  split.
  - intros n o Ho. apply finished_after_settled. rewrite Ho. simpl. tauto.
  - intros n k s Hn m Hle.
    assert (Hm : fst (run E h rq rs m) = Suspended Forever k).
    { replace m with (n + (m - n)) by lia. rewrite run_add, Hn.
      destruct (stalled_turns E (m - n) k s) as [s' ->]. reflexivity. }
    split; [exact Hm|].
    pose proof (silent_run E h rq rs m) as Hsil.
    unfold silent_until_finished in Hsil. rewrite Hm in Hsil. exact Hsil.
Qed.

Lemma completes_after_handler_witness :
  fst (run (prompt 2) hangs a_request empty_response 7)
  = Suspended Forever Resolve /\
  completions (trace (snd (run (prompt 2) hangs a_request empty_response 7)))
  = [].
Proof.
  apply (proj2 (@completes_after_handler _ _ (prompt 2) hangs a_request
                  empty_response) 0 Resolve
               (snd (run (prompt 2) hangs a_request empty_response 0))).
  - reflexivity.
  - lia.
Defined.

(** ** The response *)

(** X10.  The wrapper never writes the response: a property of the response
    that the writes of the async middleware and the downstream stages keep
    holds of the response at every turn, and of the response as it is at
    each completion call. *)
Theorem response_only_passed (Req Res : Type) (E : engine Res)
    (h : AsyncJsonrpcMiddleware Req Res) (rq : Req) (rs : Res)
    (Q : Res -> Prop) :
  downstream_keeps E Q ->
  res_writes_keep Q h ->
  Q rs ->
  forall n,
    Q (res (snd (run E h rq rs n))) /\
    Forall (seen_satisfies Q) (trace (snd (run E h rq rs n))).
Proof.
  intros HE Hh Hq n.
  destruct (@res_run _ _ E Q HE h rq rs n Hh Hq) as (H1 & _ & H3 & _). auto.
Qed.

Lemma response_only_passed_witness :
  error (res (snd (run twice awaits_next a_request empty_response 4))) = None
  /\ Forall (seen_satisfies (fun r => error r = None))
       (trace (snd (run twice awaits_next a_request empty_response 4))).
Proof.
  apply (@response_only_passed _ _ twice awaits_next a_request empty_response
            (fun r => error r = None)).
  - intros i d cb g Hsup r Hr. simpl in Hsup.
    injection Hsup as _ _ <-. exact Hr.
  - do 2 constructor. constructor; [intros r Hr; exact Hr | constructor].
  - reflexivity.
Defined.

(** ** Without [next()] *)

(** X11.  When the async middleware never calls [next()], the only calls
    the wrapper makes are calls of [end]: [next] is not called and no
    callback is captured or called, whether the async middleware resolves or
    throws and whether [end] returns or throws. *)
Theorem only_end_without_next (Req Res : Type) (E : engine Res)
    (h : AsyncJsonrpcMiddleware Req Res) (rq : Req) (rs : Res) :
  calls_next h 0 ->
  forall n,
    Forall (fun e => is_end e = true) (trace (snd (run E h rq rs n))) /\
    returnHandlerCallback (snd (run E h rq rs n)) = None.
Proof.
  intros Hh n.
  assert (H0 : nextCalls (snd (run E h rq rs n)) = 0).
  { destruct (calls_run E rq rs n Hh) as (left & _ & Hc).
    destruct (sound_run E h rq rs n) as (_ & _ & _ & H4 & _). lia. }
  destruct (only_end_run E h rq rs n H0) as (H1 & H2 & _). auto.
Qed.

Lemma only_end_without_next_witness :
  Forall (fun e => is_end e = true)
    (trace (snd (run picky sets_result a_request empty_response 3))) /\
  returnHandlerCallback (snd (run picky sets_result a_request empty_response 3))
  = None.
Proof.
  apply (@only_end_without_next _ _ picky sets_result a_request
            empty_response).
  repeat constructor.
Defined.
